(** * pyMon: the GitHub release-notes fetcher (get_latest_releases.py)

    A shallow embedding of [GitHubReleaseFetcher]: the release classifier
    and aggregator of [get_latest_releases], the writer
    [save_release_notes], and the drivers [process_repository] and [main].

    Modelling conventions.
    - Python [str] is [string]; [str.lower] and [str.strip] are modelled on
      the ASCII range.
    - A Python [dict] is an insertion-ordered association list with unique
      keys ([Dict.set] updates in place or appends at the end).
    - The dynamically typed accumulator value is the tagged union [Slot]:
      a list (history mode) or a 2-tuple (latest-only mode).
    - Python exceptions are the [Raised] results of the state-and-exception
      monad [M]; the unbounded [while True] loop runs on fuel and [Diverged]
      is the model's only outcome that Python does not have.
    - The remote API is a function from a repository and a page number to
      a [Response]; the file system is a finite map from [pathlib] paths
      to nodes.
    - The rate-limit headers of a response may each be missing; one that
      is there holds a number. [datetime.fromtimestamp] is CPython's on a
      platform whose [time_t] has 64 bits and whose local time zone is
      UTC.
    - [print] and [debug_print] calls are left out: none of them changes
      control flow (those whose arguments can raise, at lines 319 and 398
      and in the handler of [save_release_notes], are modelled by what
      they raise). The constructor
      of the fetcher, which resolves the settings and catches its own
      errors, is represented by the resolved [Config]. *)

From Stdlib Require Import String Ascii.
From stdpp Require Import gmap strings list fin_maps.

#[local] Arguments String.append !_ _ / : simpl nomatch.
#[local] Set Warnings "-clear-no-such-hyp".

(** ** Strings, as the Python code uses them *)

Module Str.

(** [bool(s)]: a string is truthy when it is not empty. *)
Definition truthy (s : string) : bool :=
  match s with EmptyString => false | String _ _ => true end.

Definition lower_char (c : ascii) : ascii :=
  let n := nat_of_ascii c in
  if (65 <=? n)%nat && (n <=? 90)%nat then ascii_of_nat (n + 32) else c.

(** [s.lower()] *)
Fixpoint lower (s : string) : string :=
  match s with
  | EmptyString => EmptyString
  | String c s' => String (lower_char c) (lower s')
  end.

(** [s.startswith(p)] *)
Fixpoint startswith (s p : string) {struct p} : bool :=
  match p, s with
  | EmptyString, _ => true
  | String _ _, EmptyString => false
  | String b p', String a s' => if Ascii.eqb a b then startswith s' p' else false
  end.

(** [needle in hay] *)
Fixpoint contains (needle hay : string) : bool :=
  startswith hay needle ||
  match hay with
  | EmptyString => false
  | String _ hay' => contains needle hay'
  end.

(** [s[n:]] *)
Fixpoint drop (n : nat) (s : string) : string :=
  match n, s with
  | O, _ => s
  | S n', EmptyString => EmptyString
  | S n', String _ s' => drop n' s'
  end.

(** [s.split(sep)[0]]: the characters before the first [sep]. *)
Fixpoint before (sep : ascii) (s : string) : string :=
  match s with
  | EmptyString => EmptyString
  | String c s' => if Ascii.eqb c sep then EmptyString else String c (before sep s')
  end.

(** [s.split(sep)] for a one-character separator. *)
Fixpoint split (sep : ascii) (s : string) : list string :=
  match s with
  | EmptyString => [EmptyString]
  | String c s' =>
      if Ascii.eqb c sep then EmptyString :: split sep s'
      else match split sep s' with
           | [] => [String c EmptyString]
           | w :: ws => String c w :: ws
           end
  end.

Definition is_space (c : ascii) : bool :=
  let n := nat_of_ascii c in
  ((9 <=? n)%nat && (n <=? 13)%nat) || ((28 <=? n)%nat && (n <=? 32)%nat).

Fixpoint lstrip (s : string) : string :=
  match s with
  | EmptyString => EmptyString
  | String c s' => if is_space c then lstrip s' else s
  end.

Fixpoint rstrip (s : string) : string :=
  match s with
  | EmptyString => EmptyString
  | String c s' =>
      match rstrip s' with
      | EmptyString => if is_space c then EmptyString else String c EmptyString
      | r => String c r
      end
  end.

(** [s.strip()] *)
Definition strip (s : string) : string := rstrip (lstrip s).

End Str.

(** ** Release records and the accumulator *)

(** One element of the JSON list the release-listing endpoint returns.
    [name] and [body] may be [null]. *)
Record Release := mkRelease {
  tag_name : string;
  name : option string;
  body : option string;
  draft : bool;
  prerelease : bool
}.

(** [class ReleaseInfo] *)
Record ReleaseInfo := mkReleaseInfo {
  tag : string;
  ri_body : string;
  is_prerelease : bool
}.

#[global] Instance ReleaseInfo_eq_dec : EqDecision ReleaseInfo.
Proof. solve_decision. Defined.

(** A value of [artifacts_releases]: a list in history mode, a 2-tuple of
    optional releases in latest-only mode. *)
Inductive Slot :=
  | Hist (l : list ReleaseInfo)
  | Latest (stable pre : option ReleaseInfo).

#[global] Instance Slot_eq_dec : EqDecision Slot.
Proof. solve_decision. Defined.

Inductive exn :=
  | RequestException
  | KeyError (k : string)
  | AttributeError
  | ValueError
  | OverflowError
  | OSError
  | SystemExit (code : nat).

(** *** Python dictionaries *)

Module Dict.
Section Dict.
Context {V : Type}.

(** [d.get(k)] *)
Fixpoint get (d : list (string * V)) (k : string) : option V :=
  match d with
  | [] => None
  | (k', v) :: d' => if String.eqb k' k then Some v else get d' k
  end.

(** [k in d] *)
Definition mem (d : list (string * V)) (k : string) : bool :=
  match get d k with Some _ => true | None => false end.

(** [d[k] = v] *)
Fixpoint set (d : list (string * V)) (k : string) (v : V) : list (string * V) :=
  match d with
  | [] => [(k, v)]
  | (k', v') :: d' =>
      if String.eqb k' k then (k', v) :: d' else (k', v') :: set d' k v
  end.

(** [d.keys()] and [d.values()] *)
Definition keys (d : list (string * V)) : list string := map fst d.
Definition values (d : list (string * V)) : list V := map snd d.
End Dict.
End Dict.

Definition Accumulator := list (string * Slot).

(** ** The classifier (lines 338-365 of get_latest_releases.py) *)

Definition release_name (r : Release) : string :=
  match name r with
  | Some n => if Str.truthy n then Str.lower n else ""
  | None => ""
  end.

Definition release_tag (r : Release) : string := Str.lower (tag_name r).

Definition release_body (r : Release) : string :=
  match body r with
  | Some b => if Str.truthy b then Str.lower b else ""
  | None => ""
  end.

(** The condition of line 346. *)
Definition artifact_matches (artifact : string) (r : Release) : bool :=
  Str.truthy artifact &&
  (Str.contains (Str.lower artifact) (release_name r) ||
   Str.contains (Str.lower artifact) (release_tag r) ||
   Str.contains (Str.lower artifact) (release_body r)).

(** The [for artifact in configured_artifacts] loop with its [break];
    [matched_artifact] starts as the empty string. *)
Fixpoint match_configured (configured_artifacts : list string) (r : Release) : string :=
  match configured_artifacts with
  | [] => ""
  | artifact :: rest =>
      if artifact_matches artifact r then artifact else match_configured rest r
  end.

(** The guard of line 356. *)
Definition takes_fallback (configured_artifacts : list string) (r : Release) : bool :=
  negb (Str.truthy (match_configured configured_artifacts r)) &&
  Str.contains "/" (tag_name r).

(** The value of [matched_artifact] at line 367. *)
Definition classify (configured_artifacts : list string) (r : Release) : string :=
  if takes_fallback configured_artifacts r
  then Str.before "/" (tag_name r)
  else match_configured configured_artifacts r.

(** A fresh accumulator value for the active mode. *)
Definition empty_slot (fetch_history : bool) : Slot :=
  if fetch_history then Hist [] else Latest None None.

(** Lines 344-365: the key of the release and the accumulator after the
    tag-derived key, if any, has been given its slot. *)
Definition classify_release (fetch_history : bool) (configured_artifacts : list string)
    (artifacts_releases : Accumulator) (r : Release) : string * Accumulator :=
  let matched_artifact := match_configured configured_artifacts r in
  if negb (Str.truthy matched_artifact) && Str.contains "/" (tag_name r) then
    let potential_artifact := Str.before "/" (tag_name r) in
    let matched_artifact := potential_artifact in
    if negb (Dict.mem artifacts_releases matched_artifact)
    then (matched_artifact,
          Dict.set artifacts_releases matched_artifact (empty_slot fetch_history))
    else (matched_artifact, artifacts_releases)
  else (matched_artifact, artifacts_releases).

(** ** The remote API *)

(** The rate-limit headers of a response, as [response.headers] gives
    them: each of [X-RateLimit-Remaining] and [X-RateLimit-Reset] is
    absent or holds the number its text denotes. The two are independent:
    the fixture of the tests sends the first without the second. *)
Record Headers := mkHeaders {
  x_ratelimit_remaining : option Z;
  x_ratelimit_reset : option Z
}.

(** What [session.get] does for one page: it raises a
    [RequestException] (no connection, timeout, ...) or returns a response
    with a status code, headers and a JSON list of releases. *)
Inductive Response :=
  | ConnectionError
  | HttpResponse (status_code : Z) (headers : Headers) (json : list Release).

Definition Server := string -> nat -> Response.

(** ** The file system, seen through pathlib *)

Module Pathlib.

(** A pure POSIX path: its root ([""], ["/"] or ["//"]) and its parts.
    [".."] is an ordinary part, as in pathlib. *)
Definition Path : Type := string * list string.

Definition splitroot (s : string) : string :=
  match s with
  | String "/" (String "/" (String "/" _)) => "/"
  | String "/" (String "/" _) => "//"
  | String "/" _ => "/"
  | _ => ""
  end.

Definition parts_of (s : string) : list string :=
  filter (fun x => x <> "" /\ x <> ".") (Str.split "/" s).

(** [Path(s)] *)
Definition of_string (s : string) : Path := (splitroot s, parts_of s).

(** [p / s]: an absolute segment replaces the path. *)
Definition join (p : Path) (s : string) : Path :=
  if Str.startswith s "/" then of_string s else (p.1, p.2 ++ parts_of s).

(** [p.parent] *)
Definition parent (p : Path) : Path := (p.1, removelast p.2).

End Pathlib.

Abbreviation Path := Pathlib.Path.
Infix "//" := Pathlib.join (at level 40, left associativity).

Inductive Node :=
  | Dir
  | File (content : string).

#[global] Instance Node_eq_dec : EqDecision Node.
Proof. solve_decision. Defined.

Module FS.

(** [p.is_dir()]; the root and the working directory always exist. *)
Definition is_dir (fs : gmap Path Node) (p : Path) : bool :=
  match p.2 with
  | [] => true
  | _ => bool_decide (fs !! p = Some Dir)
  end.

(** [p.exists()] *)
Definition exists_ (fs : gmap Path Node) (p : Path) : bool :=
  match p.2 with
  | [] => true
  | _ => bool_decide (is_Some (fs !! p))
  end.

(** The ancestors of [p] from the top, [p] itself last. *)
Definition prefixes (p : Path) : list Path :=
  (fun n => (p.1, take n p.2)) <$> seq 1 (length p.2).

Definition mkdir_step (acc : option (gmap Path Node)) (d : Path) : option (gmap Path Node) :=
  match acc with
  | None => None
  | Some fs =>
      match fs !! d with
      | None => Some (<[d := Dir]> fs)
      | Some Dir => Some fs
      | Some (File _) => None
      end
  end.

(** [p.mkdir(parents=True, exist_ok=True)]: [None] when an [OSError] is
    raised, which leaves the tree as it was. *)
Definition mkdir (fs : gmap Path Node) (p : Path) : option (gmap Path Node) :=
  foldl mkdir_step (Some fs) (prefixes p).

(** [p.write_text(content)]: [None] when an [OSError] is raised (the
    parent is not a directory, or [p] is one). *)
Definition write_text (fs : gmap Path Node) (p : Path) (content : string)
    : option (gmap Path Node) :=
  if is_dir fs (Pathlib.parent p) && negb (is_dir fs p)
  then Some (<[p := File content]> fs)
  else None.

End FS.

(** ** The world and the monad of the program *)

(** What the program acts on: the file system, and three logs that the
    Python code does not keep but that its effects determine: the pages
    requested from the release-listing endpoint, the releases that reached
    the classifier, and the per-repository summaries printed at the end of
    [process_repository] (artifact, written, skipped). *)
Record World := mkWorld {
  fs : gmap Path Node;
  requested : list (string * nat);
  classified : list Release;
  summaries : list (string * list (string * (nat * nat)))
}.

Inductive Result (A : Type) :=
  | Done (a : A) (w : World)
  | Raised (e : exn) (w : World)
  | Diverged.
Arguments Done {A} a w.
Arguments Raised {A} e w.
Arguments Diverged {A}.

Definition M (A : Type) : Type := World -> Result A.

#[global] Instance M_ret : MRet M := fun A a w => Done a w.

#[global] Instance M_bind : MBind M := fun A B k m w =>
  match m w with
  | Done a w' => k a w'
  | Raised e w' => Raised e w'
  | Diverged => Diverged
  end.

Definition raise {A} (e : exn) : M A := fun w => Raised e w.

Definition out_of_fuel {A} : M A := fun _ => Diverged.

(** [try: m  except <handles>: handler] *)
Definition try_except {A} (m : M A) (handles : exn -> bool) (handler : M A) : M A :=
  fun w =>
    match m w with
    | Raised e w' => if handles e then handler w' else Raised e w'
    | r => r
    end.

(** [except requests.exceptions.RequestException] *)
Definition is_request_exception (e : exn) : bool :=
  match e with RequestException => true | _ => false end.

(** [except Exception]: everything but [SystemExit]. *)
Definition is_exception (e : exn) : bool :=
  match e with SystemExit _ => false | _ => true end.

Definition log_request (repo : string) (page : nat) : M unit := fun w =>
  Done tt (mkWorld (fs w) (requested w ++ [(repo, page)]) (classified w) (summaries w)).

Definition log_classified (r : Release) : M unit := fun w =>
  Done tt (mkWorld (fs w) (requested w) (classified w ++ [r]) (summaries w)).

Definition log_summary (repo : string) (s : list (string * (nat * nat))) : M unit := fun w =>
  Done tt (mkWorld (fs w) (requested w) (classified w) (summaries w ++ [(repo, s)])).

Definition get_fs : M (gmap Path Node) := fun w => Done (fs w) w.

Definition put_fs (fs' : gmap Path Node) : M unit := fun w =>
  Done tt (mkWorld fs' (requested w) (classified w) (summaries w)).

(** ** The clock *)

Module Datetime.

(** The timestamps a 64-bit [time_t] holds, those the C library's
    [localtime] converts (the year fits an [int]), and those of the years
    1 to 9999 for which the day before is in these years too. *)
Definition fits_time_t (t : Z) : bool :=
  (- 2 ^ 63 <=? t)%Z && (t <? 2 ^ 63)%Z.

Definition fits_localtime (t : Z) : bool :=
  (-67768040609740800 <=? t)%Z && (t <=? 67768036191676799)%Z.

Definition fits_years (t : Z) : bool :=
  (-62135510400 <=? t)%Z && (t <=? 253402300799)%Z.

(** [datetime.fromtimestamp(t)] of an [int], as CPython does it where
    [time_t] has 64 bits and the local time zone is UTC. It raises
    [OverflowError] when [t] does not fit [time_t], [OSError] when
    [localtime] fails, and [ValueError] when the year is out of range
    (the conversion also looks at the day before [t], to find a repeated
    hour). The program only prints the value. *)
Definition fromtimestamp (t : Z) : M unit :=
  if negb (fits_time_t t) then raise OverflowError
  else if negb (fits_localtime t) then raise OSError
  else if negb (fits_years t) then raise ValueError
  else mret tt.

(** The timestamps [fromtimestamp] converts. *)
Definition representable (t : Z) : bool :=
  fits_time_t t && fits_localtime t && fits_years t.

End Datetime.

(** ** The aggregator (lines 269-409) *)

(** The resolved configuration of the fetcher. [get_monorepo_artifacts]
    is the allow-list the layered lookup yields for a repository, and the
    three [repos] fields are what the environment, the command line and
    the configuration file say about the repository list. *)
Record Config := mkConfig {
  artifacts_root : string;
  fetch_history : bool;
  get_monorepo_artifacts : string -> list string;
  env_repos : option string;
  arg_repos : option string;
  file_repos : option string
}.

Definition per_page : nat := 100.

Definition no_notes : string := "No release notes provided.".

(** Lines 367-371. [release['body'] or "No release notes provided."] *)
Definition make_release_info (r : Release) : ReleaseInfo :=
  mkReleaseInfo (tag_name r)
    (match body r with
     | Some b => if Str.truthy b then b else no_notes
     | None => no_notes
     end)
    (prerelease r).

(** [a, b = v]: a 2-tuple unpacks, and so does a list of two elements;
    any other list raises [ValueError]. *)
Definition unpack (v : Slot) : M (option ReleaseInfo * option ReleaseInfo) :=
  match v with
  | Latest stable pre => mret (stable, pre)
  | Hist [a; b] => mret (Some a, Some b)
  | Hist _ => raise ValueError
  end.

(** The neutral result [{'': (None, None)}]. *)
Definition neutral_result : Accumulator := [("", Latest None None)].

(** Lines 297-302. *)
Fixpoint init_accumulator (history : bool) (configured_artifacts : list string)
    (artifacts_releases : Accumulator) : Accumulator :=
  match configured_artifacts with
  | [] => artifacts_releases
  | artifact :: rest =>
      init_accumulator history rest
        (Dict.set artifacts_releases artifact (empty_slot history))
  end.

(** Lines 373-382. *)
Definition store_release (history : bool) (artifacts_releases : Accumulator)
    (matched_artifact : string) (r : Release) : M Accumulator :=
  let release_info := make_release_info r in
  if history then
    match Dict.get artifacts_releases matched_artifact with
    | None => raise (KeyError matched_artifact)
    | Some (Hist l) =>
        mret (Dict.set artifacts_releases matched_artifact (Hist (l ++ [release_info])))
    | Some (Latest _ _) => raise AttributeError
    end
  else
    '(current_stable, current_pre) ←
      unpack (default (Latest None None) (Dict.get artifacts_releases matched_artifact));
    if prerelease r && negb (bool_decide (is_Some current_pre)) then
      mret (Dict.set artifacts_releases matched_artifact
              (Latest current_stable (Some release_info)))
    else if negb (prerelease r) && negb (bool_decide (is_Some current_stable)) then
      mret (Dict.set artifacts_releases matched_artifact
              (Latest (Some release_info) current_pre))
    else mret artifacts_releases.

(** Line 386: [all(stable and pre for stable, pre in values)]. *)
Fixpoint all_found (values : list Slot) : M bool :=
  match values with
  | [] => mret true
  | v :: rest =>
      '(stable, pre) ← unpack v;
      if bool_decide (is_Some stable) && bool_decide (is_Some pre)
      then all_found rest
      else mret false
  end.

(** The body of [for release in releases] for a release that is not a
    draft (lines 338-388); the boolean says whether the loop breaks. *)
Definition process_release (history : bool) (configured_artifacts : list string)
    (artifacts_releases : Accumulator) (r : Release) : M (Accumulator * bool) :=
  let '(matched_artifact, artifacts_releases) :=
    classify_release history configured_artifacts artifacts_releases r in
  log_classified r;;
  artifacts_releases ← store_release history artifacts_releases matched_artifact r;
  if negb history then
    found ← all_found (Dict.values artifacts_releases);
    mret (artifacts_releases, found)
  else mret (artifacts_releases, false).

(** Lines 334-388: the [for] loop over one page. *)
Fixpoint process_page (history : bool) (configured_artifacts : list string)
    (artifacts_releases : Accumulator) (releases : list Release) : M Accumulator :=
  match releases with
  | [] => mret artifacts_releases
  | release :: rest =>
      if draft release then
        process_page history configured_artifacts artifacts_releases rest
      else
        '(artifacts_releases, stop) ←
          process_release history configured_artifacts artifacts_releases release;
        if (stop : bool) then mret artifacts_releases
        else process_page history configured_artifacts artifacts_releases rest
  end.

(** How the body of the [try] block returned. *)
Inductive Exit :=
  | LoopEnd          (* line 405, after the [while] loop *)
  | RateLimitReturn  (* line 323 *)
  | NoReleasesReturn (* line 331 *).

(** What one turn of [while True] does next. *)
Inductive Step :=
  | Continue (artifacts_releases : Accumulator)
  | Break (artifacts_releases : Accumulator)
  | Return (exit : Exit) (result : Accumulator).

(** [response.status_code == 403 and 'X-RateLimit-Remaining' in
    response.headers] followed by [remaining == 0] (lines 315-317). *)
Definition rate_limit_hit (status_code : Z) (headers : Headers) : bool :=
  (status_code =? 403)%Z &&
  match x_ratelimit_remaining headers with
  | Some remaining => (remaining =? 0)%Z
  | None => false
  end.

(** [int(response.headers[name])] for a header whose value, when there is
    one, is [value]. The headers of [requests] are a case-insensitive
    dictionary, which looks the name up, and raises [KeyError] for it, in
    lower case. *)
Definition int_header (name : string) (value : option Z) : M Z :=
  match value with
  | Some n => mret n
  | None => raise (KeyError (Str.lower name))
  end.

(** [response.raise_for_status()] raises for 4xx and 5xx. *)
Definition is_error_status (status_code : Z) : bool :=
  (400 <=? status_code)%Z && (status_code <? 600)%Z.

(** Lines 318-323: the reset time is computed for the message of line
    320, then the accumulator is returned. *)
Definition rate_limit_return (headers : Headers) (artifacts_releases : Accumulator) :
    M Step :=
  reset ← int_header "X-RateLimit-Reset" (x_ratelimit_reset headers);
  Datetime.fromtimestamp reset;;
  mret (Return RateLimitReturn artifacts_releases).

(** Lines 394-402: after a full page, the quota decides whether the next
    page is asked for; the reset time is read for the message of line
    399. *)
Definition next_page (headers : Headers) (artifacts_releases : Accumulator) : M Step :=
  match x_ratelimit_remaining headers with
  | Some remaining =>
      if (remaining <? 1)%Z then
        int_header "X-RateLimit-Reset" (x_ratelimit_reset headers);;
        mret (Break artifacts_releases)
      else mret (Continue artifacts_releases)
  | None => mret (Continue artifacts_releases)
  end.

#[global] Arguments rate_limit_return : simpl never.
#[global] Arguments next_page : simpl never.

(** Lines 305-402: one turn of the [while] loop. *)
Definition fetch_page (server : Server) (history : bool)
    (configured_artifacts : list string) (repo : string) (page : nat)
    (artifacts_releases : Accumulator) : M Step :=
  log_request repo page;;
  match server repo page with
  | ConnectionError => raise RequestException
  | HttpResponse status_code headers releases =>
      if rate_limit_hit status_code headers then
        rate_limit_return headers artifacts_releases
      else if is_error_status status_code then raise RequestException
      else
        match releases with
        | [] =>
            if (page =? 1)%nat then mret (Return NoReleasesReturn neutral_result)
            else mret (Break artifacts_releases)
        | _ =>
            artifacts_releases ←
              process_page history configured_artifacts artifacts_releases releases;
            if (length releases <? per_page)%nat then mret (Break artifacts_releases)
            else next_page headers artifacts_releases
        end
  end.

(** Lines 304-405: the [while True] loop, on fuel. *)
Fixpoint fetch_loop (fuel : nat) (server : Server) (history : bool)
    (configured_artifacts : list string) (repo : string) (page : nat)
    (artifacts_releases : Accumulator) : M (Exit * Accumulator) :=
  match fuel with
  | O => out_of_fuel
  | S fuel' =>
      step ← fetch_page server history configured_artifacts repo page artifacts_releases;
      match step with
      | Continue artifacts_releases =>
          fetch_loop fuel' server history configured_artifacts repo (page + 1)
            artifacts_releases
      | Break artifacts_releases => mret (LoopEnd, artifacts_releases)
      | Return exit result => mret (exit, result)
      end
  end.

(** Lines 292-405: the body of the [try] block. *)
Definition fetch_releases (fuel : nat) (server : Server) (cfg : Config)
    (repo : string) : M (Exit * Accumulator) :=
  let configured_artifacts := get_monorepo_artifacts cfg repo in
  let artifacts_releases :=
    init_accumulator (fetch_history cfg) configured_artifacts [] in
  fetch_loop fuel server (fetch_history cfg) configured_artifacts repo 1
    artifacts_releases.

(** [GitHubReleaseFetcher.get_latest_releases] *)
Definition get_latest_releases (fuel : nat) (server : Server) (cfg : Config)
    (repo : string) : M Accumulator :=
  try_except
    ('(_, result) ← fetch_releases fuel server cfg repo; mret result)
    is_request_exception
    (mret neutral_result).

(** ** The writer (lines 411-461) *)

Definition nl : string := String (ascii_of_nat 10) EmptyString.

(** Lines 418-421. *)
Definition base_path (root owner repo artifact : string) : Path :=
  if Str.truthy artifact
  then Pathlib.of_string root // owner // repo // artifact
  else Pathlib.of_string root // owner // repo.

(** Lines 427-429: the tag without the artifact prefix. *)
Definition clean_tag (artifact tag : string) : string :=
  if Str.truthy artifact && Str.startswith tag (artifact +:+ "/")
  then Str.drop (String.length artifact + 1) tag
  else tag.

(** Lines 432-433. *)
Definition file_path (root owner repo artifact tag : string) : Path :=
  base_path root owner repo artifact // (clean_tag artifact tag +:+ ".md").

(** Lines 443-452. *)
Definition file_content (owner repo artifact : string) (release : ReleaseInfo) : string :=
  let release_type :=
    if is_prerelease release then "Pre-release" else "Stable Release" in
  let full_path := owner +:+ "/" +:+ repo in
  let full_path :=
    if Str.truthy artifact then full_path +:+ "/" +:+ artifact else full_path in
  "# " +:+ full_path +:+ " - " +:+ tag release +:+ " (" +:+ release_type +:+ ")" +:+ nl +:+
  nl +:+ "## Release Notes" +:+ nl +:+ nl +:+ ri_body release +:+ nl.

(** [release.tag], where [release] may be [None]. *)
Definition tag_of (release : option ReleaseInfo) : M string :=
  match release with
  | Some r => mret (tag r)
  | None => raise AttributeError
  end.

(** A file-system call that raises [OSError] when it fails. *)
Definition os_call (f : gmap Path Node -> option (gmap Path Node)) : M unit :=
  fs ← get_fs;
  match f fs with
  | Some fs' => put_fs fs'
  | None => raise OSError
  end.

(** The body of the [try] block of [save_release_notes]. *)
Definition save_body (cfg : Config) (owner repo artifact : string)
    (release : option ReleaseInfo) : M bool :=
  let base_path := base_path (artifacts_root cfg) owner repo artifact in
  os_call (fun fs => FS.mkdir fs base_path);;
  tag ← tag_of release;
  let filepath := base_path // (clean_tag artifact tag +:+ ".md") in
  fs ← get_fs;
  if FS.exists_ fs filepath then mret false
  else
    match release with
    | Some r =>
        os_call (fun fs => FS.write_text fs filepath (file_content owner repo artifact r));;
        mret true
    | None => raise AttributeError
    end.

(** [GitHubReleaseFetcher.save_release_notes]. The handler prints
    [release.tag] itself before it returns [False]. *)
Definition save_release_notes (cfg : Config) (owner repo artifact : string)
    (release : option ReleaseInfo) : M bool :=
  try_except (save_body cfg owner repo artifact release)
    is_exception
    (tag_of release;; mret false).

(** ** The drivers (lines 463-524) *)

(** [for release in releases]: the elements of a list, or of a 2-tuple. *)
Definition elements_of (v : Slot) : list (option ReleaseInfo) :=
  match v with
  | Hist l => Some <$> l
  | Latest stable pre => [stable; pre]
  end.

(** One call of the writer and the counters after it. *)
Definition save_and_count (cfg : Config) (owner repo_name artifact : string)
    (release : option ReleaseInfo) (counts : nat * nat) : M (nat * nat) :=
  saved ← save_release_notes cfg owner repo_name artifact release;
  if (saved : bool) then mret (counts.1 + 1, counts.2) else mret (counts.1, counts.2 + 1).

(** Lines 478-482. *)
Fixpoint save_all (cfg : Config) (owner repo_name artifact : string)
    (releases : list (option ReleaseInfo)) (counts : nat * nat) : M (nat * nat) :=
  match releases with
  | [] => mret counts
  | release :: rest =>
      counts ← save_and_count cfg owner repo_name artifact release counts;
      save_all cfg owner repo_name artifact rest counts
  end.

(** Lines 487-497. *)
Definition save_latest (cfg : Config) (owner repo_name artifact : string)
    (v : Slot) : M (nat * nat) :=
  '(stable_release, prerelease) ← unpack v;
  counts ←
    match stable_release with
    | Some _ => save_and_count cfg owner repo_name artifact stable_release (0, 0)
    | None => mret (0, 0)
    end;
  match prerelease with
  | Some _ => save_and_count cfg owner repo_name artifact prerelease counts
  | None => mret counts
  end.

(** Lines 474-498: the loop over [artifacts_releases.items()]. *)
Fixpoint save_artifacts (cfg : Config) (owner repo_name : string)
    (items : Accumulator) (summary : list (string * (nat * nat)))
    : M (list (string * (nat * nat))) :=
  match items with
  | [] => mret summary
  | (artifact, v) :: rest =>
      counts ←
        (if fetch_history cfg
         then save_all cfg owner repo_name artifact (elements_of v) (0, 0)
         else save_latest cfg owner repo_name artifact v);
      save_artifacts cfg owner repo_name rest (Dict.set summary artifact counts)
  end.

(** Lines 507-516: what printing the latest tags of one artifact needs
    from its accumulator value. *)
Definition print_latest (cfg : Config) (v : Slot) : M unit :=
  if fetch_history cfg then
    match v with
    | Hist [] => mret tt
    | Hist (latest :: _) => mret tt
    | Latest latest _ => tag_of latest;; mret tt
    end
  else
    unpack v;; mret tt.

Fixpoint print_summary (cfg : Config) (artifacts_releases : Accumulator)
    (summary : list (string * (nat * nat))) : M unit :=
  match summary with
  | [] => mret tt
  | (artifact, _) :: rest =>
      match Dict.get artifacts_releases artifact with
      | Some v => print_latest cfg v
      | None => raise (KeyError artifact)
      end;;
      print_summary cfg artifacts_releases rest
  end.

(** [GitHubReleaseFetcher.process_repository] *)
Definition process_repository (fuel : nat) (server : Server) (cfg : Config)
    (repo : string) : M unit :=
  match Str.split "/" (Str.strip repo) with
  | [owner; repo_name] =>
      artifacts_releases ←
        get_latest_releases fuel server cfg (owner +:+ "/" +:+ repo_name);
      summary ← save_artifacts cfg owner repo_name artifacts_releases [];
      log_summary repo summary;;
      print_summary cfg artifacts_releases summary
  | _ => mret tt
  end.

(** [GitHubReleaseFetcher.get_repositories] *)
Definition get_repositories (cfg : Config) : M (list string) :=
  match env_repos cfg with
  | Some (String c s) => mret (Str.split "," (String c s))
  | _ =>
      match arg_repos cfg with
      | Some (String c s) => mret (Str.split "," (String c s))
      | _ =>
          match file_repos cfg with
          | Some repos => mret (Str.split "," repos)
          | None => raise (SystemExit 1)
          end
      end
  end.

Fixpoint process_all (fuel : nat) (server : Server) (cfg : Config)
    (repositories : list string) : M unit :=
  match repositories with
  | [] => mret tt
  | repo :: rest =>
      process_repository fuel server cfg repo;;
      process_all fuel server cfg rest
  end.

(** [main] *)
Definition main (fuel : nat) (server : Server) (cfg : Config) : M unit :=
  repositories ← get_repositories cfg;
  process_all fuel server cfg repositories.

(** ** The configuration resolver (lines 137-267) *)

(** What the resolver reads. [environ] is [os.getenv]. The command line is
    taken as argparse has parsed it: [cli_option n] is the value given to
    the long option [--n], [cli_flag n] says whether the flag [--n] is
    there. [files n] is the configuration file named [n] as configparser
    has parsed it (sections of keys, keys in lower case, defaults merged
    in), or [None] when no such file exists. *)
Record Sources := mkSources {
  environ : string -> option string;
  cli_option : string -> option string;
  cli_flag : string -> bool;
  files : string -> option (list (string * list (string * string)))
}.

Module Resolver.

Definition CONFIG_FILE_NAMES : list string := ["repos.cfg"; "repos.conf"].

Definition upper_char (c : ascii) : ascii :=
  let n := nat_of_ascii c in
  if (97 <=? n)%nat && (n <=? 122)%nat then ascii_of_nat (n - 32) else c.

(** [s.upper()] *)
Fixpoint upper (s : string) : string :=
  match s with
  | EmptyString => EmptyString
  | String c s' => String (upper_char c) (upper s')
  end.

(** [s.replace(a, b)] for one-character [a] and [b]. *)
Fixpoint replace (a b : ascii) (s : string) : string :=
  match s with
  | EmptyString => EmptyString
  | String c s' => String (if Ascii.eqb c a then b else c) (replace a b s')
  end.

(** [v.lower() in ('true', '1', 'yes', 'on')] *)
Definition is_true (v : string) : bool :=
  bool_decide (Str.lower v ∈ ["true"; "1"; "yes"; "on"]).

(** [section in config and key in config[section]], then
    [config[section][key]]; configparser looks keys up in lower case. *)
Definition lookup (config : list (string * list (string * string)))
    (section key : string) : option string :=
  match Dict.get config section with
  | Some keys => Dict.get keys (Str.lower key)
  | None => None
  end.

(** The loop [for config_file in CONFIG_FILE_NAMES]: the first existing
    file that has the key decides. *)
Fixpoint from_files (s : Sources) (names : list string) (section key : string)
    : option string :=
  match names with
  | [] => None
  | config_file :: rest =>
      match files s config_file with
      | Some config =>
          match lookup config section key with
          | Some v => Some v
          | None => from_files s rest section key
          end
      | None => from_files s rest section key
      end
  end.

(** [get_artifacts_path] *)
Definition get_artifacts_path (s : Sources) : string :=
  match environ s "ARTIFACTS_PATH" with
  | Some (String c env_path) => String c env_path
  | _ =>
      match cli_option s "artifacts-path" with
      | Some (String c path) => String c path
      | _ =>
          match from_files s CONFIG_FILE_NAMES "artifacts" "path" with
          | Some path => path
          | None => "artifacts"
          end
      end
  end.

(** [get_debug_setting] *)
Definition get_debug_setting (s : Sources) : bool :=
  match environ s "GITHUB_RELEASES_DEBUG" with
  | Some env_debug => is_true env_debug
  | None =>
      if cli_flag s "debug" then true
      else
        match from_files s CONFIG_FILE_NAMES "settings" "debug" with
        | Some v => is_true v
        | None => false
        end
  end.

(** [get_history_setting] *)
Definition get_history_setting (s : Sources) : bool :=
  match environ s "ARTIFACT_HISTORY" with
  | Some env_history => is_true env_history
  | None =>
      if cli_flag s "history" then true
      else
        match from_files s CONFIG_FILE_NAMES "artifacts" "history" with
        | Some v => is_true v
        | None => false
        end
  end.

(** [get_repositories]; [None] stands for [sys.exit(1)]. *)
Definition get_repositories (s : Sources) : option (list string) :=
  match environ s "GITHUB_REPOS" with
  | Some (String c repos) => Some (Str.split "," (String c repos))
  | _ =>
      match cli_option s "repos" with
      | Some (String c repos) => Some (Str.split "," (String c repos))
      | _ =>
          match from_files s CONFIG_FILE_NAMES "repositories" "repos" with
          | Some repos => Some (Str.split "," repos)
          | None => None
          end
      end
  end.

(** The attribute under which argparse stores the value of the long
    option [--n]: [n] with every "-" turned into "_". *)
Definition dest (n : string) : string := replace "-" "_" n.

(** [hasattr(args, arg_name) and getattr(args, arg_name)] for the one
    option [--n] that the parser knows. *)
Definition getattr (s : Sources) (n arg_name : string) : option string :=
  if String.eqb (dest n) arg_name then cli_option s n else None.

(** [get_monorepo_artifacts] *)
Definition get_monorepo_artifacts (s : Sources) (repo : string) : list string :=
  match environ s ("MONOREPO_ARTIFACTS_" +:+ upper (replace "/" "_" repo)) with
  | Some (String c env_artifacts) => Str.split "," (String c env_artifacts)
  | _ =>
      match getattr s ("artifacts-" +:+ replace "/" "-" repo)
              ("artifacts_" +:+ replace "/" "_" repo) with
      | Some (String c v) => Str.split "," (String c v)
      | _ =>
          match from_files s CONFIG_FILE_NAMES "monorepos" repo with
          | Some v => Str.split "," v
          | None => [""]
          end
      end
  end.

(** The settings a fetcher built from these sources works with. *)
Definition resolve (s : Sources) : Config :=
  mkConfig (get_artifacts_path s) (get_history_setting s) (get_monorepo_artifacts s)
    (environ s "GITHUB_REPOS") (cli_option s "repos")
    (from_files s CONFIG_FILE_NAMES "repositories" "repos").

End Resolver.

(** ** The vocabulary of the properties, and the scenarios they are tried on *)

Definition MOCK_RELEASES : list Release :=
  [mkRelease "v1.0.0" (Some "Version 1.0.0") (Some "Regular release notes") false false;
   mkRelease "op-node/v1.10.2" (Some "op-node v1.10.2") (Some "Monorepo release notes")
     false false;
   mkRelease "v2.0.0-rc1" (Some "Version 2.0.0-rc1") (Some "Pre-release notes") false true;
   mkRelease "v3.0.0" (Some "Draft Release") (Some "Draft notes") true false].

(** A response without rate-limit headers. *)
Definition no_headers : Headers := mkHeaders None None.

Definition mock_session : Server := fun _ _ =>
  HttpResponse 200 (mkHeaders (Some 4999%Z) None) MOCK_RELEASES.

Definition mock_config (history : bool) : Config :=
  mkConfig "artifacts" history (fun _ => [""]) None None None.

(** [needle] occurs in [hay]. *)
Definition substring (needle hay : string) : Prop :=
  exists before after, hay = before +:+ needle +:+ after.

(** A key appears in a release when its lowercase form occurs in the
    lowercased name, tag or body of the release. *)
Definition appears (key : string) (r : Release) : Prop :=
  substring (Str.lower key) (release_name r) \/
  substring (Str.lower key) (release_tag r) \/
  substring (Str.lower key) (release_body r).

Definition c5_release : Release :=
  mkRelease "op-node/v1.10.2" None None false false.

Definition c6_release : Release :=
  mkRelease "foo/v1" (Some "op-node release") None false false.

Definition with_fs (w : World) (fs' : gmap Path Node) : World :=
  mkWorld fs' (requested w) (classified w) (summaries w).

Definition c8_config : Config :=
  mkConfig "artifacts" false (fun _ => [""]) None None None.

Definition c8_release : ReleaseInfo := mkReleaseInfo "v1.0.0" "Test release notes" false.

Definition c8_world : World :=
  mkWorld
    (<[("", ["artifacts"; "owner"; "repo"; "v1.0.0.md"]) := File "old notes"]>
       (<[("", ["artifacts"; "owner"; "repo"]) := Dir]>
          (<[("", ["artifacts"; "owner"]) := Dir]>
             (<[("", ["artifacts"]) := Dir]> ∅))))
    [] [] [].

Ltac run_m :=
  unfold try_except, raise, out_of_fuel, log_request, log_classified,
    log_summary, get_fs, put_fs, mbind, M_bind, mret, M_ret in *.

(** The world after one more request has been sent. *)
Definition after_request (w : World) (repo : string) (page : nat) : World :=
  mkWorld (fs w) (requested w ++ [(repo, page)]) (classified w) (summaries w).

(** A response that makes [session.get] or [raise_for_status] raise. *)
Definition transport_error (r : Response) : Prop :=
  r = ConnectionError \/
  exists status_code headers json,
    r = HttpResponse status_code headers json /\
    rate_limit_hit status_code headers = false /\
    (400 <= status_code < 600)%Z.

(** Lines 319 and 398 cannot read the reset time of a response: the
    remaining quota is below 1 and the reset header is missing, or the
    response is the 403 of a used-up quota and the clock does not convert
    its reset time. *)
Definition reset_unreadable (status_code : Z) (headers : Headers) : Prop :=
  exists remaining,
    x_ratelimit_remaining headers = Some remaining /\ (remaining < 1)%Z /\
    match x_ratelimit_reset headers with
    | None => True
    | Some reset =>
        status_code = 403%Z /\ remaining = 0%Z /\ Datetime.representable reset = false
    end.

(** The releases of the pages that were requested, in the order they
    arrive. *)
Definition arrived (server : Server) (requests : list (string * nat)) : list Release :=
  requests ≫= fun '(repo, page) =>
    match server repo page with
    | HttpResponse _ _ json => json
    | ConnectionError => []
    end.

(** [arrives server h cfg repo p acc w p' acc' w']: the loop that is at
    page [p] with accumulator [acc] in world [w] gets to page [p'] with
    accumulator [acc'] in world [w']. *)
Inductive arrives (server : Server) (h : bool) (cfg : list string) (repo : string)
    (p : nat) (acc : Accumulator) (w : World) : nat -> Accumulator -> World -> Prop :=
  | arrives_here : arrives server h cfg repo p acc w p acc w
  | arrives_next p' acc' w' acc'' w'' :
      arrives server h cfg repo p acc w p' acc' w' ->
      fetch_page server h cfg repo p' acc' w' = Done (Continue acc'') w'' ->
      arrives server h cfg repo p acc w (p' + 1) acc'' w''.

(** The accumulator the fetch starts from and the loop states it gets to. *)
Definition start (cfg : Config) (repo : string) : Accumulator :=
  init_accumulator (fetch_history cfg) (get_monorepo_artifacts cfg repo) [].

Definition gets_to (server : Server) (cfg : Config) (repo : string) (w0 : World)
    (p : nat) (acc : Accumulator) (w : World) : Prop :=
  arrives server (fetch_history cfg) (get_monorepo_artifacts cfg repo) repo
    1 (start cfg repo) w0 p acc w.

(** The shape the values of the accumulator have in each mode. *)
Definition shape (h : bool) (v : Slot) : Prop :=
  if h then exists l, v = Hist l else exists stable pre, v = Latest stable pre.

Definition well_shaped (h : bool) (acc : Accumulator) : Prop :=
  Forall (fun kv => shape h kv.2) acc.

(** The value of a key, as line 378 reads it. *)
Definition slot_of (acc : Accumulator) (k : string) : Slot :=
  default (Latest None None) (Dict.get acc k).

(** The value of a key after a release of that key has been offered to it
    in latest-only mode: a filled slot stays, an empty one takes the
    release. *)
Definition offer (r : Release) (v : Slot) : Slot :=
  match v with
  | Latest stable pre =>
      if prerelease r
      then Latest stable (match pre with Some x => Some x | None => Some (make_release_info r) end)
      else Latest (match stable with Some x => Some x | None => Some (make_release_info r) end) pre
  | Hist l => Hist l
  end.

Definition stable_release (t : string) : Release := mkRelease t None None false false.

Definition pre_release (t : string) : Release := mkRelease t None None false true.

Definition empty_world : World := mkWorld ∅ [] [] [].

Definition default_config (history : bool) (repos : string) : Config :=
  mkConfig "artifacts" history (fun _ => [""]) (Some repos) None None.

(** A repository whose first page is full: a stable release, a
    prerelease, a release of the artifact [x], and 97 older releases; the
    second page holds one more release of [x]. *)
Definition c1_page1 : list Release :=
  [stable_release "v2.0.0"; pre_release "v2.1.0-rc1"; stable_release "x/v0.9"]
  ++ replicate 97 (stable_release "v1.0.0").

Definition c1_server : Server := fun _ page =>
  match page with
  | 1 => HttpResponse 200 (mkHeaders (Some 4999%Z) (Some 1700000000%Z)) c1_page1
  | 2 => HttpResponse 200 (mkHeaders (Some 4998%Z) (Some 1700000000%Z)) [stable_release "x/v1.0"]
  | _ => HttpResponse 200 no_headers []
  end.

Definition c1_found : Accumulator :=
  [("", Latest (Some (mkReleaseInfo "v2.0.0" no_notes false))
               (Some (mkReleaseInfo "v2.1.0-rc1" no_notes true)))].

(** Two repositories: the API cannot be reached for [a/b], and [c/d] has
    one release. *)
Definition c3_server : Server := fun repo page =>
  if String.eqb repo "a/b" then ConnectionError
  else
    match page with
    | 1 => HttpResponse 200 no_headers [stable_release "v1.0.0"]
    | _ => HttpResponse 200 no_headers []
    end.

(** A repository whose first page is full and whose second request hits
    the rate limit. *)
Definition c9_page1 : list Release := replicate 100 (stable_release "v1.0.0").

Definition c9_server : Server := fun _ page =>
  match page with
  | 1 => HttpResponse 200 (mkHeaders (Some 10%Z) (Some 1700000000%Z)) c9_page1
  | _ => HttpResponse 403 (mkHeaders (Some 0%Z) (Some 1700000000%Z)) []
  end.

(** The same repository behind something that sends the remaining quota
    without the reset time, and behind something that sends a reset time
    in milliseconds. *)
Definition c9_bare_server : Server := fun _ page =>
  match page with
  | 1 => HttpResponse 200 (mkHeaders (Some 10%Z) (Some 1700000000%Z)) c9_page1
  | _ => HttpResponse 403 (mkHeaders (Some 0%Z) None) []
  end.

Definition c9_millis_server : Server := fun _ page =>
  match page with
  | 1 => HttpResponse 200 (mkHeaders (Some 10%Z) (Some 1700000000%Z)) c9_page1
  | _ => HttpResponse 403 (mkHeaders (Some 0%Z) (Some 1700000000000%Z)) []
  end.

Definition c9_acc : Accumulator :=
  [("", Latest (Some (mkReleaseInfo "v1.0.0" no_notes false)) None)].

Definition c9_world : World := mkWorld ∅ [("o/r", 1)] c9_page1 [].

(** A repository without releases, and one whose second page fails with a
    server error. *)
Definition c10_empty_server : Server := fun _ _ => HttpResponse 200 no_headers [].

Definition c10_broken_server : Server := fun _ page =>
  match page with
  | 1 => HttpResponse 200 no_headers c9_page1
  | _ => HttpResponse 502 no_headers []
  end.

Definition c10_config : Config :=
  mkConfig "artifacts" true (fun _ => ["op-node"; ""]) None None None.

Definition c10_acc : Accumulator :=
  [("op-node", Hist []);
   ("", Hist (replicate 100 (mkReleaseInfo "v1.0.0" no_notes false)))].

(** The keys of the accumulator are the allow-list and the keys of the
    releases classified so far. *)
Definition keys_invariant (h : bool) (cfg : list string) (log0 : list Release)
    (acc : Accumulator) (log : list Release) : Prop :=
  exists seen,
    log = log0 ++ seen /\ well_shaped h acc /\
    forall k, k ∈ Dict.keys acc <-> k ∈ cfg \/ exists r, r ∈ seen /\ classify cfg r = k.

Definition c2_config : Config :=
  mkConfig "artifacts" false (fun _ => ["op-node"]) None None None.

Definition c2_release : Release :=
  mkRelease "v1.0.0" (Some "Version 1.0.0") (Some "notes") false false.

Definition c2_server : Server := fun _ page =>
  match page with
  | 1 => HttpResponse 200 no_headers [c2_release]
  | _ => HttpResponse 200 no_headers []
  end.

(** The first release of the key [k] and of the category [pre] among the
    classified releases [seen], as the [ReleaseInfo] made from it. *)
Definition first_release (cfg : list string) (k : string) (pre : bool)
    (seen : list Release) : option ReleaseInfo :=
  make_release_info <$>
    head (filter (fun r => classify cfg r = k /\ prerelease r = pre) seen).

(** Every slot holds the first release of its key in each category. *)
Definition first_invariant (cfg : list string) (log0 : list Release)
    (acc : Accumulator) (log : list Release) : Prop :=
  exists seen,
    log = log0 ++ seen /\ well_shaped false acc /\
    forall k,
      slot_of acc k =
        Latest (first_release cfg k false seen) (first_release cfg k true seen).

(** Two stable releases and two prereleases of one key: the first of each
    is kept. *)
Definition c4_server : Server := fun _ page =>
  match page with
  | 1 => HttpResponse 200 no_headers
           [stable_release "op-node/v1.10.2"; pre_release "op-node/v1.11.0-rc2";
            stable_release "op-node/v1.10.1"; pre_release "op-node/v1.11.0-rc1"]
  | _ => HttpResponse 200 no_headers []
  end.

Definition c4_config : Config :=
  mkConfig "artifacts" false (fun _ => ["op-node"; "op-geth"]) None None None.

Definition c4_result : Accumulator :=
  [("op-node", Latest (Some (mkReleaseInfo "op-node/v1.10.2" no_notes false))
                      (Some (mkReleaseInfo "op-node/v1.11.0-rc2" no_notes true)));
   ("op-geth", Latest None None)].

Definition c4_world : World :=
  mkWorld ∅ [("o/r", 1)]
    [stable_release "op-node/v1.10.2"; pre_release "op-node/v1.11.0-rc2";
     stable_release "op-node/v1.10.1"; pre_release "op-node/v1.11.0-rc1"] [].

(** What holds of the world an action ends in, whether it returns or
    raises. *)
Definition outcome {A : Type} (r : Result A) (P : World -> Prop) : Prop :=
  match r with
  | Done _ w | Raised _ w => P w
  | Diverged => True
  end.

(** The requests for the [n] pages of [repo] from page [p] on. *)
Definition pages_from (repo : string) (p n : nat) : list (string * nat) :=
  (fun i => (repo, i)) <$> seq p n.

(** The releases a key holds in history mode. *)
Definition hist_of (acc : Accumulator) (k : string) : list ReleaseInfo :=
  match Dict.get acc k with
  | Some (Hist l) => l
  | _ => []
  end.

(** Every key has its stable and its prerelease slot filled. *)
Definition all_filled (acc : Accumulator) : Prop :=
  Forall (fun kv => exists stable pre, kv.2 = Latest (Some stable) (Some pre)) acc.

(** The releases of a page that are not drafts. *)
Definition published (releases : list Release) : list Release :=
  filter (fun r => draft r = false) releases.

(** The world after [process_repository] has run on the fixtures of the
    tests, and after the writer has written [c8_release] to an empty tree. *)
Definition test_repo_world : World :=
  Eval vm_compute in
    match process_repository 1 mock_session (mock_config false) "test/repo"
            (mkWorld ∅ [] [] []) with
    | Done _ w => w
    | _ => mkWorld ∅ [] [] []
    end.

Definition c8_written_world : World :=
  Eval vm_compute in
    match save_release_notes c8_config "owner" "repo" "" (Some c8_release)
            (mkWorld ∅ [] [] []) with
    | Done _ w => w
    | _ => mkWorld ∅ [] [] []
    end.

(** In history mode every key holds the releases classified to it, in
    the order they were classified. *)
Definition hist_invariant (cfg : list string) (log0 : list Release)
    (acc : Accumulator) (log : list Release) : Prop :=
  exists seen,
    log = log0 ++ seen /\ well_shaped true acc /\
    forall k,
      hist_of acc k = make_release_info <$> filter (fun r => classify cfg r = k) seen.

(** The releases a value of the accumulator stores. *)
Definition stored (v : Slot) : list ReleaseInfo :=
  match v with
  | Hist l => l
  | Latest stable pre => option_list stable ++ option_list pre
  end.

(** What the writer may do to the world: add entries to the tree. *)
Definition grows (w w' : World) : Prop :=
  fs w ⊆ fs w' /\ requested w' = requested w /\ classified w' = classified w /\
  summaries w' = summaries w.


(** How often a character occurs in a string. *)
Fixpoint occurrences (c : ascii) (s : string) : nat :=
  match s with
  | EmptyString => 0
  | String a s' => (if Ascii.eqb a c then 1 else 0) + occurrences c s'
  end.

(** ** The functions on the fixtures of test_release_fetcher.py *)

Example split_repo : Str.split "/" "owner/repo" = ["owner"; "repo"].
Proof. reflexivity. Qed.

Example split_no_sep : Str.split "/" "owner" = ["owner"].
Proof. reflexivity. Qed.

Example split_twice : Str.split "/" "a//b" = ["a"; ""; "b"].
Proof. reflexivity. Qed.

Example strip_spaces : Str.strip "  owner/repo " = "owner/repo".
Proof. reflexivity. Qed.

Example lower_mixed : Str.lower "Op-Node V1" = "op-node v1".
Proof. reflexivity. Qed.

Example contains_inside : Str.contains "node" "op-node/v1" = true.
Proof. reflexivity. Qed.

Example pathlib_absolute_segment :
  Pathlib.of_string "artifacts" // "owner" // "/v1.md" = ("/", ["v1.md"]).
Proof. reflexivity. Qed.

(** [test_get_latest_releases] *)
Example test_get_latest_releases :
  exists w,
    get_latest_releases 1 mock_session (mock_config false) "test/repo"
      (mkWorld ∅ [] [] []) =
    Done
      [("", Latest (Some (mkReleaseInfo "v1.0.0" "Regular release notes" false))
                   (Some (mkReleaseInfo "v2.0.0-rc1" "Pre-release notes" true)));
       ("op-node",
        Latest (Some (mkReleaseInfo "op-node/v1.10.2" "Monorepo release notes" false))
               None)] w.
Proof. eexists. vm_compute. reflexivity. Qed.

(** [test_history_mode] *)
Example test_history_mode :
  exists w,
    get_latest_releases 1 mock_session (mock_config true) "test/repo"
      (mkWorld ∅ [] [] []) =
    Done
      [("", Hist [mkReleaseInfo "v1.0.0" "Regular release notes" false;
                  mkReleaseInfo "v2.0.0-rc1" "Pre-release notes" true]);
       ("op-node", Hist [mkReleaseInfo "op-node/v1.10.2" "Monorepo release notes" false])]
      w.
Proof. eexists. vm_compute. reflexivity. Qed.

(** [test_process_repository] *)
Example test_process_repository :
  process_repository 1 mock_session (mock_config false) "test/repo"
    (mkWorld ∅ [] [] []) = Done tt test_repo_world /\
  FS.exists_ (fs test_repo_world) ("", ["artifacts"; "test"; "repo"; "v1.0.0.md"]) = true /\
  FS.exists_ (fs test_repo_world)
    ("", ["artifacts"; "test"; "repo"; "op-node"; "v1.10.2.md"]) = true /\
  summaries test_repo_world = [("test/repo", [("", (2, 0)); ("op-node", (1, 0))])].
Proof. repeat split; vm_compute; reflexivity. Qed.

(** * Properties *)

(** ** Strings *)

Lemma truthy_true s : Str.truthy s = true <-> s <> "".
Proof. destruct s; simpl; split; congruence. Qed.

Lemma truthy_false s : Str.truthy s = false <-> s = "".
Proof. destruct s; simpl; split; congruence. Qed.

Lemma startswith_spec s p :
  Str.startswith s p = true <-> exists rest, s = p +:+ rest.
Proof.
  revert s. induction p as [|b p IH]; intros s; simpl.
  - split; [intros _; by exists s | done].
  - destruct s as [|a s].
    + split; [done | intros [rest Hrest]; discriminate].
    + destruct (Ascii.eqb a b) eqn:Hab.
      * apply Ascii.eqb_eq in Hab as ->. rewrite IH.
        split; intros [rest Hrest]; exists rest.
        -- simpl. by rewrite Hrest.
        -- simpl in Hrest. by injection Hrest.
      * apply Ascii.eqb_neq in Hab.
        split; [done | intros [rest Hrest]; simpl in Hrest; congruence].
Qed.

Lemma contains_spec needle hay :
  Str.contains needle hay = true <-> substring needle hay.
Proof.
  unfold substring. induction hay as [|c hay IH]; simpl.
  - rewrite orb_false_r, startswith_spec. split.
    + intros [rest Hrest]. by exists "", rest.
    + intros [[|? ?] [after Heq]]; [by exists after | discriminate].
  - rewrite orb_true_iff, startswith_spec, IH. split.
    + intros [[rest Hrest] | (bf & af & Heq)].
      * by exists "", rest.
      * exists (String c bf), af. simpl. by rewrite Heq.
    + intros ([|c' bf] & af & Heq); simpl in Heq.
      * left. by exists af.
      * right. exists bf, af. congruence.
Qed.

Lemma contains_false needle hay :
  Str.contains needle hay = false <-> ~ substring needle hay.
Proof. rewrite <- contains_spec. by destruct (Str.contains needle hay). Qed.





Lemma string_app_inv_head (p a b : string) : p +:+ a = p +:+ b -> a = b.
Proof. induction p; simpl; [done | intros [=]; auto]. Qed.

(** [tag.split('/')[0]] is the part of the tag before its first separator. *)
Lemma before_spec s :
  Str.contains "/" s = true ->
  exists rest, s = Str.before "/" s +:+ "/" +:+ rest /\
               ~ substring "/" (Str.before "/" s).
Proof.
  induction s as [|c s IH]; simpl; [done |].
  destruct (Ascii.eqb c "/") eqn:Hc.
  - apply Ascii.eqb_eq in Hc as ->. intros _. exists s. split; [done |].
    intros ([|? ?] & af & Heq); discriminate.
  - simpl. intros Hs. destruct (IH Hs) as (rest & Heq & Hno).
    exists rest. split; [simpl; f_equal; exact Heq |].
    intros ([|c' bf] & af & Heq'); simpl in Heq'.
    + injection Heq' as -> _. by rewrite Ascii.eqb_refl in Hc.
    + injection Heq' as _ Heq'. apply Hno. by exists bf, af.
Qed.

(** ** Dictionaries *)

Section DictFacts.
Context {V : Type}.
Implicit Types (d : list (string * V)) (k : string) (v : V).

Lemma get_set_eq d k v : Dict.get (Dict.set d k v) k = Some v.
Proof.
  induction d as [|[k' v'] d IH]; simpl.
  - by rewrite String.eqb_refl.
  - destruct (String.eqb k' k) eqn:E; simpl; by rewrite E.
Qed.

Lemma get_set_ne d k k' v : k <> k' -> Dict.get (Dict.set d k v) k' = Dict.get d k'.
Proof.
  intros Hne. induction d as [|[k0 v0] d IH]; simpl.
  - destruct (String.eqb k k') eqn:E; [|done].
    by apply String.eqb_eq in E.
  - destruct (String.eqb k0 k) eqn:E; simpl; [|by rewrite IH].
    apply String.eqb_eq in E as ->.
    destruct (String.eqb k k') eqn:E'; [|done].
    by apply String.eqb_eq in E'.
Qed.

(** Assigning to a key the dictionary lacks appends it. *)
Lemma set_absent d k v : Dict.get d k = None -> Dict.set d k v = d ++ [(k, v)].
Proof.
  induction d as [|[k' v'] d IH]; simpl; [done |].
  destruct (String.eqb k' k); [done |]. intros H. by rewrite IH.
Qed.

Lemma get_Some_keys d k : is_Some (Dict.get d k) <-> k ∈ Dict.keys d.
Proof.
  unfold Dict.keys. induction d as [|[k' v'] d IH]; simpl.
  - split; [by intros [? ?] | by intros ?%elem_of_nil].
  - rewrite elem_of_cons. destruct (String.eqb k' k) eqn:E.
    + apply String.eqb_eq in E. split; [by left | by eexists].
    + apply String.eqb_neq in E. rewrite IH. naive_solver.
Qed.

(** Assignment keeps the keys that were there, in their order, and adds
    [k] at the end when it is new. *)
Lemma keys_set d k v :
  Dict.keys (Dict.set d k v) =
    if Dict.mem d k then Dict.keys d else Dict.keys d ++ [k].
Proof.
  unfold Dict.mem, Dict.keys. induction d as [|[k' v'] d IH]; simpl; [done |].
  destruct (String.eqb k' k) eqn:E; simpl; [done |].
  rewrite IH. by destruct (Dict.get d k).
Qed.

Lemma elem_of_keys_set d k k' v :
  k' ∈ Dict.keys (Dict.set d k v) <-> k' = k \/ k' ∈ Dict.keys d.
Proof.
  rewrite keys_set. unfold Dict.mem.
  destruct (Dict.get d k) eqn:E.
  - assert (k ∈ Dict.keys d) by (apply get_Some_keys; eauto). naive_solver.
  - rewrite elem_of_app, list_elem_of_singleton. naive_solver.
Qed.
End DictFacts.

(** ** The classifier *)

Lemma artifact_matches_spec artifact r :
  artifact_matches artifact r = true <-> artifact <> "" /\ appears artifact r.
Proof.
  unfold artifact_matches, appears.
  rewrite andb_true_iff, !orb_true_iff, truthy_true, !contains_spec. tauto.
Qed.

Lemma artifact_matches_false artifact r :
  artifact_matches artifact r = false <-> artifact = "" \/ ~ appears artifact r.
Proof.
  rewrite <- not_true_iff_false, artifact_matches_spec.
  destruct (decide (artifact = "")); tauto.
Qed.


Lemma match_configured_none cfg r :
  (forall a, a ∈ cfg -> a = "" \/ ~ appears a r) ->
  match_configured cfg r = "".
Proof.
  induction cfg as [|a cfg IH]; intros Hall; simpl; [done |].
  rewrite (proj2 (artifact_matches_false a r)).
  - apply IH. intros a' Ha'. apply Hall. by right.
  - apply Hall. by left.
Qed.

(** The key of [classify_release] does not depend on the mode or on the
    accumulator. *)
Lemma classify_release_key h cfg acc r :
  (classify_release h cfg acc r).1 = classify cfg r.
Proof.
  unfold classify_release, classify, takes_fallback.
  destruct (negb _ && _); [|done].
  by destruct (negb (Dict.mem acc _)).
Qed.




(** C6, as stated, fails: the tag of [c6_release] contains no configured
    key and has a separator, but the name matches the configured key
    ["op-node"], which becomes the key instead of ["foo"]. *)
Lemma C6_counterexample :
  Str.contains (Str.lower "op-node") (release_tag c6_release) = false /\
  Str.contains "/" (tag_name c6_release) = true /\
  Str.before "/" (tag_name c6_release) = "foo" /\
  classify ["op-node"] c6_release = "op-node" /\
  (forall h acc, classify_release h ["op-node"] acc c6_release = ("op-node", acc)) /\
  "op-node" <> "foo".
Proof. repeat split; done. Qed.

(** C6, amended: when no non-empty configured key occurs in the lowercased
    name, tag or body of a release and its tag has a separator, the part of
    the tag before the first separator is the key; a key without a slot
    gets one, at the end of the accumulator, empty for the active mode, and
    an accumulator that has the key is left as it is. *)
Theorem C6_tag_derived_key
    (h : bool) (cfg : list string) (acc : Accumulator) (r : Release) :
  (forall a, a ∈ cfg -> a = "" \/ ~ appears a r) ->
  substring "/" (tag_name r) ->
  exists key rest,
    tag_name r = key +:+ "/" +:+ rest /\
    ~ substring "/" key /\
    classify cfg r = key /\
    (classify_release h cfg acc r).1 = key /\
    (Dict.get acc key = None ->
       (classify_release h cfg acc r).2 =
         acc ++ [(key, if h then Hist [] else Latest None None)]) /\
    (is_Some (Dict.get acc key) -> (classify_release h cfg acc r).2 = acc).
Proof.
  intros Hnone Hsep. apply contains_spec in Hsep.
  destruct (before_spec _ Hsep) as (rest & Htag & Hkey).
  pose proof (match_configured_none cfg r Hnone) as Hm.
  exists (Str.before "/" (tag_name r)), rest.
  split; [done |]. split; [done |].
  split; [unfold classify, takes_fallback; by rewrite Hm, Hsep |].
  unfold classify_release, Dict.mem. rewrite Hm, Hsep. simpl.
  destruct (Dict.get acc (Str.before "/" (tag_name r))) eqn:Hget; simpl.
  - split; [done |]. split; [done | done].
  - split; [done |]. split; [|by intros [? ?]].
    intros _. rewrite set_absent by done. by destruct h.
Qed.

Lemma C6_tag_derived_key_witness :
  exists key rest,
    tag_name c5_release = key +:+ "/" +:+ rest /\
    ~ substring "/" key /\
    classify [""; "op-geth"] c5_release = key /\
    (classify_release false [""; "op-geth"] [("", Latest None None)] c5_release).1 = key /\
    (Dict.get [("", Latest None None)] key = None ->
       (classify_release false [""; "op-geth"] [("", Latest None None)] c5_release).2 =
         [("", Latest None None)] ++ [(key, if false then Hist [] else Latest None None)]) /\
    (is_Some (Dict.get [("", Latest None None)] key) ->
       (classify_release false [""; "op-geth"] [("", Latest None None)] c5_release).2 =
         [("", Latest None None)]).
Proof.
  apply (C6_tag_derived_key false [""; "op-geth"] [("", Latest None None)] c5_release).
  - intros a [-> | [-> | []%elem_of_nil]%elem_of_cons]%elem_of_cons; [by left | right].
    intros [H | [H | H]]; apply contains_spec in H; discriminate H.
  - apply contains_spec. reflexivity.
Defined.

(** ** The writer *)

Lemma with_fs_same w : with_fs w (fs w) = w.
Proof. by destruct w. Qed.


(** The writer on a release that is there, case by case. *)
Lemma save_release_notes_Some cfg owner repo artifact (release : ReleaseInfo) w :
  save_release_notes cfg owner repo artifact (Some release) w =
    let target := file_path (artifacts_root cfg) owner repo artifact (tag release) in
    match FS.mkdir (fs w) (base_path (artifacts_root cfg) owner repo artifact) with
    | None => Done false w
    | Some fs1 =>
        if FS.exists_ fs1 target then Done false (with_fs w fs1)
        else
          match FS.write_text fs1 target (file_content owner repo artifact release) with
          | Some fs2 => Done true (with_fs w fs2)
          | None => Done false (with_fs w fs1)
          end
    end.
Proof.
  unfold save_release_notes, try_except, save_body, os_call, get_fs, put_fs,
    tag_of, raise, file_path, with_fs, mbind, M_bind, mret, M_ret. simpl.
  destruct (FS.mkdir _ _) as [fs1|]; simpl; [|done].
  destruct (FS.exists_ _ _); simpl; [done |].
  by destruct (FS.write_text _ _ _).
Qed.

Section FSFacts.
Implicit Types (fs : gmap Path Node) (p d : Path).

Lemma mkdir_fold_None ds : foldl FS.mkdir_step None ds = None.
Proof. by induction ds. Qed.

(** A successful [mkdir] keeps every entry and adds directories only. *)
Lemma mkdir_fold_extends ds fs fs' :
  foldl FS.mkdir_step (Some fs) ds = Some fs' ->
  (forall q n, fs !! q = Some n -> fs' !! q = Some n) /\
  (forall q n, fs' !! q = Some n -> fs !! q = Some n \/ n = Dir) /\
  (forall d, d ∈ ds -> fs' !! d = Some Dir).
Proof.
  revert fs. induction ds as [|d ds IH]; intros fs; simpl.
  - intros [= ->]. split; [done |]. split; [by left |]. by intros d ?%elem_of_nil.
  - destruct (fs !! d) as [[|c]|] eqn:Hd.
    + intros H. destruct (IH _ H) as (H1 & H2 & H3).
      split; [done |]. split; [done |].
      intros d' [-> | ?]%elem_of_cons; [by apply H1 | by apply H3].
    + by rewrite mkdir_fold_None.
    + intros H. destruct (IH _ H) as (H1 & H2 & H3).
      split; [|split].
      * intros q n Hq. apply H1. rewrite lookup_insert_ne; [done |].
        intros ->. congruence.
      * intros q n Hq. destruct (H2 _ _ Hq) as [Hq' | ->]; [|by right].
        destruct (decide (d = q)) as [-> | Hne].
        -- rewrite lookup_insert_eq in Hq'. right. congruence.
        -- rewrite lookup_insert_ne in Hq' by done. by left.
      * intros d' [-> | ?]%elem_of_cons; [|by apply H3].
        apply H1. by rewrite lookup_insert_eq.
Qed.

Lemma mkdir_fold_dirs ds fs :
  (forall d, d ∈ ds -> fs !! d = Some Dir) ->
  foldl FS.mkdir_step (Some fs) ds = Some fs.
Proof.
  induction ds as [|d ds IH]; intros Hall; simpl; [done |].
  rewrite (Hall d) by by left. apply IH. intros d' ?. apply Hall. by right.
Qed.

(** [mkdir] with [exist_ok] is idempotent. *)
Lemma mkdir_idempotent fs p fs' : FS.mkdir fs p = Some fs' -> FS.mkdir fs' p = Some fs'.
Proof.
  unfold FS.mkdir. intros H. apply mkdir_fold_extends in H as (_ & _ & H).
  by apply mkdir_fold_dirs.
Qed.

(** A failing [mkdir] fails again on the same tree. *)
Lemma exists_extends fs fs' p :
  (forall q n, fs !! q = Some n -> fs' !! q = Some n) ->
  FS.exists_ fs p = true -> FS.exists_ fs' p = true.
Proof.
  unfold FS.exists_. intros Hext. destruct (p.2); [done |].
  rewrite !bool_decide_eq_true. intros [n Hn]. exists n. by apply Hext.
Qed.

Lemma write_text_exists fs p c fs' :
  FS.write_text fs p c = Some fs' ->
  FS.exists_ fs' p = true /\ fs' !! p = Some (File c) /\
  (forall d, fs !! d = Some Dir -> fs' !! d = Some Dir).
Proof.
  unfold FS.write_text, FS.exists_, FS.is_dir.
  destruct (_ && _) eqn:Hok; [|done]. intros [= <-].
  rewrite lookup_insert_eq. split; [|split; [done |]].
  - destruct (p.2); [done |]. apply bool_decide_eq_true. by eexists.
  - intros d Hd. rewrite lookup_insert_ne; [done |]. intros <-.
    apply andb_true_iff in Hok as [_ Hok]. destruct (p.2); [done |].
    apply negb_true_iff, bool_decide_eq_false in Hok. done.
Qed.

End FSFacts.

(** What the writer does when the target is there: it skips, keeps every
    entry of the tree, adds no file, and does the same when run again. *)
Lemma save_existing cfg owner repo artifact (release : ReleaseInfo) w :
  FS.exists_ (fs w)
    (file_path (artifacts_root cfg) owner repo artifact (tag release)) = true ->
  exists w',
    save_release_notes cfg owner repo artifact (Some release) w = Done false w' /\
    (forall p n, fs w !! p = Some n -> fs w' !! p = Some n) /\
    (forall p c, fs w' !! p = Some (File c) -> fs w !! p = Some (File c)) /\
    w' = with_fs w (fs w') /\
    save_release_notes cfg owner repo artifact (Some release) w' = Done false w'.
Proof.
  intros Hex. rewrite save_release_notes_Some. simpl.
  destruct (FS.mkdir _ _) as [fs1|] eqn:Hmk.
  - pose proof Hmk as Hidem%mkdir_idempotent.
    apply mkdir_fold_extends in Hmk as (Hkeep & Hnew & _).
    rewrite (exists_extends _ _ _ Hkeep Hex).
    exists (with_fs w fs1). split; [done |]. split; [done |]. split; [|split; [done |]].
    + intros p c Hp. by destruct (Hnew _ _ Hp).
    + rewrite save_release_notes_Some. simpl. rewrite Hidem.
      by rewrite (exists_extends _ _ _ Hkeep Hex).
  - exists w. split; [done |]. split; [done |]. split; [done |].
    split; [by rewrite with_fs_same |].
    rewrite save_release_notes_Some. simpl. by rewrite Hmk.
Qed.




(** The scenarios of the tests [test_tag_cleanup] and
    [test_save_monorepo_release_notes], and a tag that carries the prefix
    twice. *)
Example file_path_plain :
  file_path "artifacts" "owner" "repo" "" "v1.0.0" =
    ("", ["artifacts"; "owner"; "repo"; "v1.0.0.md"]).
Proof. reflexivity. Qed.

Example file_path_monorepo :
  file_path "artifacts" "owner" "repo" "op-node" "op-node/v1.0.0" =
    ("", ["artifacts"; "owner"; "repo"; "op-node"; "v1.0.0.md"]).
Proof. reflexivity. Qed.

Example clean_tag_once : clean_tag "op" "op/op/v1" = "op/v1".
Proof. reflexivity. Qed.


(** C8: when the target exists, the writer returns [False], keeps every
    entry of the tree, adds and changes no file, touches nothing else, and
    does the same on the next run. *)
Theorem C8_existing_file_skipped
    (cfg : Config) (owner repo artifact : string) (release : ReleaseInfo) (w : World) :
  FS.exists_ (fs w)
    (file_path (artifacts_root cfg) owner repo artifact (tag release)) = true ->
  exists w',
    save_release_notes cfg owner repo artifact (Some release) w = Done false w' /\
    (forall p n, fs w !! p = Some n -> fs w' !! p = Some n) /\
    (forall p c, fs w' !! p = Some (File c) -> fs w !! p = Some (File c)) /\
    w' = with_fs w (fs w') /\
    save_release_notes cfg owner repo artifact (Some release) w' = Done false w'.
Proof. apply save_existing. Qed.

Lemma C8_existing_file_skipped_witness :
  exists w',
    save_release_notes c8_config "owner" "repo" "" (Some c8_release) c8_world =
      Done false w' /\
    (forall p n, fs c8_world !! p = Some n -> fs w' !! p = Some n) /\
    (forall p c, fs w' !! p = Some (File c) -> fs c8_world !! p = Some (File c)) /\
    w' = with_fs c8_world (fs w') /\
    save_release_notes c8_config "owner" "repo" "" (Some c8_release) w' = Done false w'.
Proof.
  apply (C8_existing_file_skipped c8_config "owner" "repo" "" c8_release c8_world).
  vm_compute. reflexivity.
Defined.

(** [test_skip_existing_files]: the first run writes, the second skips. *)
Example save_then_skip :
  save_release_notes c8_config "owner" "repo" "" (Some c8_release)
    (mkWorld ∅ [] [] []) = Done true c8_written_world /\
  save_release_notes c8_config "owner" "repo" "" (Some c8_release) c8_written_world =
    Done false c8_written_world.
Proof. split; vm_compute; reflexivity. Qed.

(** ** The paging loop *)

Lemma arrives_le server h cfg repo p acc w p' acc' w' :
  arrives server h cfg repo p acc w p' acc' w' -> p <= p'.
Proof. induction 1; lia. Qed.

Lemma fetch_loop_continue fuel server h cfg repo p acc w acc' w' :
  fetch_page server h cfg repo p acc w = Done (Continue acc') w' ->
  fetch_loop (S fuel) server h cfg repo p acc w =
    fetch_loop fuel server h cfg repo (p + 1) acc' w'.
Proof. intros H. simpl. run_m. by rewrite H. Qed.

(** With fuel for the pages in between, the loop goes on from where it
    has arrived. *)
Lemma fetch_loop_arrives server h cfg repo p acc w p' acc' w' :
  arrives server h cfg repo p acc w p' acc' w' ->
  forall fuel,
    fetch_loop ((p' - p) + fuel) server h cfg repo p acc w =
      fetch_loop fuel server h cfg repo p' acc' w'.
Proof.
  induction 1 as [|p' acc' w' acc'' w'' Harr IH Hstep]; intros fuel.
  - by replace (p - p + fuel) with fuel by lia.
  - apply arrives_le in Harr.
    replace (p' + 1 - p + fuel) with ((p' - p) + S fuel) by lia.
    rewrite IH. by apply fetch_loop_continue.
Qed.

(** What [datetime.fromtimestamp] does, by the timestamp alone. *)
Lemma fromtimestamp_representable t w :
  Datetime.representable t = true -> Datetime.fromtimestamp t w = Done tt w.
Proof.
  unfold Datetime.representable, Datetime.fromtimestamp.
  intros [[-> ->]%andb_true_iff ->]%andb_true_iff. done.
Qed.

Lemma fromtimestamp_not_representable t w :
  Datetime.representable t = false ->
  exists e, Datetime.fromtimestamp t w = Raised e w /\ is_request_exception e = false.
Proof.
  unfold Datetime.representable, Datetime.fromtimestamp. intros H.
  destruct (Datetime.fits_time_t t); [|by eexists].
  destruct (Datetime.fits_localtime t); [|by eexists].
  destruct (Datetime.fits_years t); [done | by eexists].
Qed.

Lemma rate_limit_hit_spec status_code headers :
  rate_limit_hit status_code headers = true <->
  status_code = 403%Z /\ x_ratelimit_remaining headers = Some 0%Z.
Proof.
  unfold rate_limit_hit. rewrite andb_true_iff, Z.eqb_eq. split.
  - intros [-> H]. split; [done |]. destruct (x_ratelimit_remaining headers); [|done].
    by apply Z.eqb_eq in H as ->.
  - by intros [-> ->].
Qed.


Lemma next_page_spec status_code headers acc w :
  next_page headers acc w = Done (Continue acc) w \/
  next_page headers acc w = Done (Break acc) w \/
  exists e,
    next_page headers acc w = Raised e w /\ is_request_exception e = false /\
    reset_unreadable status_code headers.
Proof.
  unfold next_page, int_header, reset_unreadable. run_m.
  destruct (x_ratelimit_remaining headers) as [remaining|]; [|by left].
  destruct (Z.ltb_spec remaining 1); [|by left].
  destruct (x_ratelimit_reset headers); [right; by left |].
  right; right. eexists. split; [done |]. split; [done |]. by exists remaining.
Qed.

Lemma rate_limit_return_cases headers acc w :
  rate_limit_return headers acc w = Done (Return RateLimitReturn acc) w \/
  exists e, rate_limit_return headers acc w = Raised e w /\ is_request_exception e = false.
Proof.
  unfold rate_limit_return, int_header. run_m.
  destruct (x_ratelimit_reset headers) as [reset|]; [|right; by eexists].
  destruct (Datetime.representable reset) eqn:Hok.
  - left. by rewrite fromtimestamp_representable.
  - right. destruct (fromtimestamp_not_representable reset w Hok) as (e & -> & He).
    by exists e.
Qed.

Lemma next_page_cases headers acc w :
  next_page headers acc w = Done (Continue acc) w \/
  next_page headers acc w = Done (Break acc) w \/
  exists e, next_page headers acc w = Raised e w /\ is_request_exception e = false.
Proof.
  destruct (next_page_spec 0%Z headers acc w) as [? | [? | (e & ? & ? & _)]];
    [by left | right; by left | right; right; by exists e].
Qed.

Ltac rate_limit_return_cases :=
  match goal with
  | |- context [rate_limit_return ?hd ?acc ?w] =>
      destruct (rate_limit_return_cases hd acc w) as [-> | (? & -> & ?)]
  end.

Ltac next_page_cases :=
  match goal with
  | |- context [next_page ?hd ?acc ?w] =>
      destruct (next_page_cases hd acc w) as [-> | [-> | (? & -> & ?)]]
  end.

Lemma fetch_page_rate_limit server h cfg repo p acc w status_code headers json reset :
  server repo p = HttpResponse status_code headers json ->
  rate_limit_hit status_code headers = true ->
  x_ratelimit_reset headers = Some reset ->
  Datetime.representable reset = true ->
  fetch_page server h cfg repo p acc w =
    Done (Return RateLimitReturn acc) (after_request w repo p).
Proof.
  intros Hs Hhit Hreset Hok.
  unfold fetch_page, rate_limit_return, int_header, after_request. run_m. simpl.
  rewrite Hs, Hhit, Hreset. by rewrite fromtimestamp_representable.
Qed.

(** Without the reset header, or with a timestamp the clock cannot
    convert, line 319 raises before line 323 returns. *)
Lemma fetch_page_rate_limit_raises server h cfg repo p acc w status_code headers json :
  server repo p = HttpResponse status_code headers json ->
  rate_limit_hit status_code headers = true ->
  match x_ratelimit_reset headers with
  | None => True
  | Some reset => Datetime.representable reset = false
  end ->
  exists e,
    fetch_page server h cfg repo p acc w = Raised e (after_request w repo p) /\
    is_request_exception e = false /\
    (x_ratelimit_reset headers = None -> e = KeyError "x-ratelimit-reset").
Proof.
  intros Hs Hhit Hreset.
  unfold fetch_page, rate_limit_return, int_header, after_request. run_m. simpl.
  rewrite Hs, Hhit. destruct (x_ratelimit_reset headers) as [reset|].
  - destruct (fromtimestamp_not_representable reset
                (mkWorld (fs w) (requested w ++ [(repo, p)]) (classified w) (summaries w))
                Hreset) as (e & -> & He).
    by exists e.
  - by eexists.
Qed.

Lemma fetch_page_transport_error server h cfg repo p acc w :
  transport_error (server repo p) ->
  fetch_page server h cfg repo p acc w =
    Raised RequestException (after_request w repo p).
Proof.
  intros [Hs | (st & hd & js & Hs & Hhit & Hst)]; unfold fetch_page; run_m; simpl;
    rewrite Hs; [done |].
  rewrite Hhit. unfold is_error_status.
  destruct (Z.leb_spec 400 st); [|lia]. destruct (Z.ltb_spec st 600); [done | lia].
Qed.

Lemma fetch_page_no_releases server h cfg repo acc w status_code headers :
  server repo 1 = HttpResponse status_code headers [] ->
  rate_limit_hit status_code headers = false ->
  is_error_status status_code = false ->
  fetch_page server h cfg repo 1 acc w =
    Done (Return NoReleasesReturn neutral_result) (after_request w repo 1).
Proof. intros Hs Hhit Herr. unfold fetch_page. run_m. simpl. by rewrite Hs, Hhit, Herr. Qed.

(** [get_latest_releases] in terms of the loop. *)
Lemma get_latest_releases_unfold fuel server cfg repo w :
  get_latest_releases fuel server cfg repo w =
    match fetch_loop fuel server (fetch_history cfg) (get_monorepo_artifacts cfg repo)
            repo 1
            (init_accumulator (fetch_history cfg) (get_monorepo_artifacts cfg repo) [])
            w with
    | Done (_, result) w' => Done result w'
    | Raised e w' =>
        if is_request_exception e then Done neutral_result w' else Raised e w'
    | Diverged => Diverged
    end.
Proof.
  unfold get_latest_releases, fetch_releases. run_m.
  by destruct (fetch_loop _ _ _ _ _ _ _ _) as [[? ?] ?| |].
Qed.

Lemma get_latest_releases_at server cfg repo w0 p acc w fuel :
  gets_to server cfg repo w0 p acc w ->
  p <= fuel ->
  get_latest_releases fuel server cfg repo w0 =
    match fetch_page server (fetch_history cfg) (get_monorepo_artifacts cfg repo)
            repo p acc w with
    | Done (Continue acc') w' =>
        match fetch_loop (fuel - p) server (fetch_history cfg)
                (get_monorepo_artifacts cfg repo) repo (p + 1) acc' w' with
        | Done (_, result) w'' => Done result w''
        | Raised e w'' =>
            if is_request_exception e then Done neutral_result w'' else Raised e w''
        | Diverged => Diverged
        end
    | Done (Break acc') w' => Done acc' w'
    | Done (Return _ result) w' => Done result w'
    | Raised e w' =>
        if is_request_exception e then Done neutral_result w' else Raised e w'
    | Diverged => Diverged
    end.
Proof.
  intros Harr Hfuel. rewrite get_latest_releases_unfold.
  pose proof (arrives_le _ _ _ _ _ _ _ _ _ _ Harr) as Hp.
  replace fuel with ((p - 1) + S (fuel - p)) at 1 by lia.
  unfold gets_to, start in Harr. rewrite (fetch_loop_arrives _ _ _ _ _ _ _ _ _ _ Harr).
  simpl. run_m.
  by destruct (fetch_page _ _ _ _ _ _ _) as [[?|?|? ?] ?| |].
Qed.

(** ** The storage step *)

Lemma shape_empty_slot h : shape h (empty_slot h).
Proof. destruct h; simpl; eauto. Qed.

Lemma well_shaped_set h acc k v :
  well_shaped h acc -> shape h v -> well_shaped h (Dict.set acc k v).
Proof.
  unfold well_shaped. intros Hacc Hv. induction Hacc as [|[k' v'] acc Hkv Hacc IH]; simpl.
  - by constructor.
  - destruct (String.eqb k' k); constructor; done.
Qed.

Lemma well_shaped_get h acc k v :
  well_shaped h acc -> Dict.get acc k = Some v -> shape h v.
Proof.
  unfold well_shaped. induction 1 as [|[k' v'] acc Hkv Hacc IH]; simpl; [done |].
  destruct (String.eqb k' k); [by intros [= <-] | done].
Qed.

Lemma well_shaped_init h cfg acc :
  well_shaped h acc -> well_shaped h (init_accumulator h cfg acc).
Proof.
  revert acc. induction cfg as [|a cfg IH]; intros acc Hacc; simpl; [done |].
  apply IH, well_shaped_set; [done | apply shape_empty_slot].
Qed.

Lemma keys_init h cfg acc k :
  k ∈ Dict.keys (init_accumulator h cfg acc) <-> k ∈ cfg \/ k ∈ Dict.keys acc.
Proof.
  revert acc. induction cfg as [|a cfg IH]; intros acc; simpl.
  - rewrite elem_of_nil. tauto.
  - rewrite IH, elem_of_keys_set, elem_of_cons. tauto.
Qed.

Lemma slot_of_set_eq acc k v : slot_of (Dict.set acc k v) k = v.
Proof. unfold slot_of. by rewrite get_set_eq. Qed.

Lemma slot_of_set_ne acc k k' v : k <> k' -> slot_of (Dict.set acc k v) k' = slot_of acc k'.
Proof. intros. unfold slot_of. by rewrite get_set_ne. Qed.

(** An empty value at a key the accumulator lacks reads as before. *)
Lemma slot_of_set_empty acc k k' :
  Dict.get acc k = None -> slot_of (Dict.set acc k (Latest None None)) k' = slot_of acc k'.
Proof.
  intros Hk. destruct (decide (k = k')) as [<- | Hne].
  - rewrite slot_of_set_eq. unfold slot_of. by rewrite Hk.
  - by apply slot_of_set_ne.
Qed.

Lemma init_accumulator_slots cfg acc k :
  (forall k', slot_of acc k' = Latest None None) ->
  slot_of (init_accumulator false cfg acc) k = Latest None None.
Proof.
  revert acc. induction cfg as [|a cfg IH]; intros acc Hacc; simpl; [done |].
  apply IH. intros k'. destruct (decide (a = k')) as [<- | Hne].
  - apply slot_of_set_eq.
  - by rewrite slot_of_set_ne.
Qed.

(** The two outcomes of lines 356-365. *)
Lemma classify_release_cases h cfg acc r :
  classify_release h cfg acc r = (classify cfg r, acc) \/
  (takes_fallback cfg r = true /\ Dict.get acc (classify cfg r) = None /\
   classify_release h cfg acc r =
     (classify cfg r, Dict.set acc (classify cfg r) (empty_slot h))).
Proof.
  unfold classify_release, classify, takes_fallback, Dict.mem.
  destruct (negb _ && _); [|by left].
  destruct (Dict.get acc _) eqn:Hget; simpl; [by left | by right].
Qed.

Lemma all_found_world values w b w' : all_found values w = Done b w' -> w' = w.
Proof.
  revert w. induction values as [|v values IH]; intros w; simpl; run_m.
  - by intros [= _ ->].
  - destruct v as [[|a [|b' [|? ?]]]|s p]; simpl; try done;
      repeat case_bool_decide; simpl; eauto; by intros [= _ ->].
Qed.

Lemma store_release_latest acc k r w acc' w' :
  well_shaped false acc ->
  store_release false acc k r w = Done acc' w' ->
  w' = w /\ well_shaped false acc' /\
  slot_of acc' k = offer r (slot_of acc k) /\
  (forall k', k <> k' -> slot_of acc' k' = slot_of acc k') /\
  (forall k', k' ∈ Dict.keys acc' <-> k' = k \/ k' ∈ Dict.keys acc).
Proof.
  intros Hacc. unfold store_release. run_m.
  assert (Hshape : shape false (slot_of acc k)).
  { unfold slot_of. destruct (Dict.get acc k) eqn:Hget;
      [exact (well_shaped_get false _ _ _ Hacc Hget) | by eexists _, _]. }
  assert (Hin : is_Some (Dict.get acc k) -> forall k', k' ∈ Dict.keys acc <-> k' = k \/ k' ∈ Dict.keys acc).
  { intros Hk%get_Some_keys k'. naive_solver. }
  fold (slot_of acc k). destruct Hshape as (s & p & Hslot). rewrite Hslot. simpl.
  destruct (prerelease r); simpl.
  - destruct p as [x|]; simpl.
    + intros [= <- <-]. split; [done |]. split; [done |]. split; [done |]. split; [done |].
      apply Hin. unfold slot_of in Hslot. destruct (Dict.get acc k); [by eexists | done].
    + intros [= <- <-]. split; [done |].
      split; [apply well_shaped_set; [done | by eexists _, _] |].
      split; [apply slot_of_set_eq |]. split; [intros; by apply slot_of_set_ne |].
      intros k'. apply elem_of_keys_set.
  - destruct s as [x|]; simpl.
    + intros [= <- <-]. split; [done |]. split; [done |]. split; [done |]. split; [done |].
      apply Hin. unfold slot_of in Hslot. destruct (Dict.get acc k); [by eexists | done].
    + intros [= <- <-]. split; [done |].
      split; [apply well_shaped_set; [done | by eexists _, _] |].
      split; [apply slot_of_set_eq |]. split; [intros; by apply slot_of_set_ne |].
      intros k'. apply elem_of_keys_set.
Qed.

Lemma store_release_history acc k r w acc' w' :
  well_shaped true acc ->
  store_release true acc k r w = Done acc' w' ->
  w' = w /\ well_shaped true acc' /\
  (forall k', k' ∈ Dict.keys acc' <-> k' = k \/ k' ∈ Dict.keys acc).
Proof.
  intros Hacc. unfold store_release. run_m.
  destruct (Dict.get acc k) as [[l|? ?]|] eqn:Hget; try done.
  intros [= <- <-]. split; [done |].
  split; [apply well_shaped_set; [done | by eexists] |].
  intros k'. apply elem_of_keys_set.
Qed.

(** One release in latest-only mode: it is logged, its key is in the
    accumulator afterwards, its slot has been offered the release, and
    every other key reads as before. *)
Lemma process_release_latest cfg acc r w acc' stop w' :
  well_shaped false acc ->
  process_release false cfg acc r w = Done (acc', stop) w' ->
  classified w' = classified w ++ [r] /\
  well_shaped false acc' /\
  slot_of acc' (classify cfg r) = offer r (slot_of acc (classify cfg r)) /\
  (forall k', classify cfg r <> k' -> slot_of acc' k' = slot_of acc k') /\
  (forall k', k' ∈ Dict.keys acc' <-> k' = classify cfg r \/ k' ∈ Dict.keys acc).
Proof.
  intros Hacc. unfold process_release.
  assert (exists acc1, classify_release false cfg acc r = (classify cfg r, acc1) /\
            well_shaped false acc1 /\ (forall k', slot_of acc1 k' = slot_of acc k') /\
            (forall k', k' ∈ Dict.keys acc1 -> k' = classify cfg r \/ k' ∈ Dict.keys acc) /\
            (forall k', k' ∈ Dict.keys acc -> k' ∈ Dict.keys acc1))
    as (acc1 & -> & Hacc1 & Hslots & Hkeys1 & Hkeys2).
  { destruct (classify_release_cases false cfg acc r) as [-> | (_ & Hnone & ->)].
    - exists acc. naive_solver.
    - eexists. split; [done |].
      split; [apply well_shaped_set; [done | by eexists _, _] |].
      split; [intros; by apply slot_of_set_empty |].
      split; intros k'; rewrite elem_of_keys_set; tauto. }
  run_m. cbn -[store_release all_found].
  destruct (store_release false acc1 (classify cfg r) r _) as [acc2 w2| |] eqn:Hstore;
    [|done..].
  apply store_release_latest in Hstore as (-> & Hacc2 & Hslot & Hother & Hkeys); [|done].
  destruct (all_found _ _) as [found w3| |] eqn:Hfound; [|done..].
  apply all_found_world in Hfound as ->. intros [= <- <- <-]. simpl.
  split; [done |]. split; [done |].
  split; [by rewrite Hslot, Hslots |].
  split; [intros k' Hk'; by rewrite Hother, Hslots |].
  intros k'. rewrite Hkeys. naive_solver.
Qed.

(** One release in history mode. *)
Lemma process_release_history cfg acc r w acc' stop w' :
  well_shaped true acc ->
  process_release true cfg acc r w = Done (acc', stop) w' ->
  classified w' = classified w ++ [r] /\
  well_shaped true acc' /\
  (forall k', k' ∈ Dict.keys acc' <-> k' = classify cfg r \/ k' ∈ Dict.keys acc).
Proof.
  intros Hacc. unfold process_release.
  assert (exists acc1, classify_release true cfg acc r = (classify cfg r, acc1) /\
            well_shaped true acc1 /\
            (forall k', k' ∈ Dict.keys acc1 -> k' = classify cfg r \/ k' ∈ Dict.keys acc) /\
            (forall k', k' ∈ Dict.keys acc -> k' ∈ Dict.keys acc1))
    as (acc1 & -> & Hacc1 & Hkeys1 & Hkeys2).
  { destruct (classify_release_cases true cfg acc r) as [-> | (_ & Hnone & ->)].
    - exists acc. naive_solver.
    - eexists. split; [done |].
      split; [apply well_shaped_set; [done | by eexists] |].
      split; intros k'; rewrite elem_of_keys_set; tauto. }
  run_m. cbn -[store_release all_found].
  destruct (store_release true acc1 (classify cfg r) r _) as [acc2 w2| |] eqn:Hstore;
    [|done..].
  apply store_release_history in Hstore as (-> & Hacc2 & Hkeys); [|done].
  intros [= <- <- <-]. simpl.
  split; [done |]. split; [done |].
  intros k'. rewrite Hkeys. naive_solver.
Qed.

(** ** Invariants of the paging loop *)

Section LoopInvariant.
Context (h : bool) (cfg : list string).
Context (I : Accumulator -> list Release -> Prop).
Hypothesis I_step : forall acc r w acc' stop w',
  I acc (classified w) ->
  draft r = false ->
  process_release h cfg acc r w = Done (acc', stop) w' ->
  I acc' (classified w').

Lemma process_page_invariant releases acc w acc' w' :
  I acc (classified w) ->
  process_page h cfg acc releases w = Done acc' w' ->
  I acc' (classified w').
Proof.
  revert acc w. induction releases as [|r releases IH]; intros acc w HI; simpl.
  - run_m. by intros [= <- <-].
  - destruct (draft r) eqn:Hdraft; [by apply IH |].
    run_m.
    destruct (process_release h cfg acc r w) as [[acc1 stop] w1| |] eqn:Hr; [|done..].
    pose proof (I_step _ _ _ _ _ _ HI Hdraft Hr) as HI1.
    destruct stop; [by intros [= <- <-] | by apply IH].
Qed.

Lemma fetch_page_invariant server repo p acc w step w' :
  I acc (classified w) ->
  fetch_page server h cfg repo p acc w = Done step w' ->
  match step with
  | Continue acc' | Break acc' => I acc' (classified w')
  | Return exit acc' => exit <> NoReleasesReturn -> I acc' (classified w')
  end.
Proof.
  intros HI. unfold fetch_page. run_m. simpl.
  destruct (server repo p) as [|st hd releases]; [done |].
  destruct (rate_limit_hit st hd);
    [rate_limit_return_cases; [by intros [= <- <-] | done] |].
  destruct (is_error_status st); [done |].
  destruct releases as [|r releases].
  - destruct (p =? 1)%nat; by intros [= <- <-].
  - destruct (process_page h cfg acc (r :: releases) _) as [acc1 w1| |] eqn:Hpage;
      [|done..].
    apply process_page_invariant in Hpage; [|done].
    destruct (_ <? _)%nat; [by intros [= <- <-] |].
    next_page_cases; [by intros [= <- <-] .. | done].
Qed.

Lemma fetch_loop_invariant fuel server repo p acc w exit result w' :
  I acc (classified w) ->
  fetch_loop fuel server h cfg repo p acc w = Done (exit, result) w' ->
  exit <> NoReleasesReturn ->
  I result (classified w').
Proof.
  revert p acc w. induction fuel as [|fuel IH]; intros p acc w HI; simpl; [done |].
  run_m.
  destruct (fetch_page server h cfg repo p acc w) as [step w1| |] eqn:Hstep; [|done..].
  apply fetch_page_invariant in Hstep; [|done].
  destruct step as [acc1|acc1|exit1 acc1].
  - by apply IH.
  - by intros [= <- <- <-].
  - intros [= <- <- <-]. apply Hstep.
Qed.

Lemma arrives_invariant server repo p acc w p' acc' w' :
  arrives server h cfg repo p acc w p' acc' w' ->
  I acc (classified w) -> I acc' (classified w').
Proof.
  induction 1 as [|p' acc' w' acc'' w'' Harr IH Hstep]; intros HI; [done |].
  by apply (fetch_page_invariant _ _ _ _ _ _ _ (IH HI) Hstep).
Qed.
End LoopInvariant.

(** ** Exits of the fetch *)

(** In history mode every value of a result that is not the neutral one
    is a list. *)
Lemma history_results_are_lists fuel server cfg repo w exit result w' :
  fetch_history cfg = true ->
  fetch_releases fuel server cfg repo w = Done (exit, result) w' ->
  exit <> NoReleasesReturn ->
  well_shaped true result.
Proof.
  unfold fetch_releases. intros -> Hrun Hexit.
  apply (fetch_loop_invariant true (get_monorepo_artifacts cfg repo)
           (fun acc _ => well_shaped true acc)) in Hrun; [done | | | done].
  - intros acc r w1 acc' stop w1' Hacc _ Hstep.
    by apply process_release_history in Hstep as (_ & ? & _).
  - apply well_shaped_init. constructor.
Qed.

(** A 403 response whose rate-limit-remaining header is zero ends the
    fetch with the accumulator the loop had when it asked for that page,
    when line 319 can read the reset time; when it cannot, what line 319
    raises leaves [get_latest_releases]. *)
Lemma rate_limit_returns_accumulator server cfg repo w0 p acc w status_code headers json
    fuel :
  gets_to server cfg repo w0 p acc w ->
  server repo p = HttpResponse status_code headers json ->
  rate_limit_hit status_code headers = true ->
  p <= fuel ->
  match x_ratelimit_reset headers with
  | Some reset =>
      if Datetime.representable reset
      then get_latest_releases fuel server cfg repo w0 = Done acc (after_request w repo p)
      else exists e,
             get_latest_releases fuel server cfg repo w0 =
               Raised e (after_request w repo p)
  | None =>
      get_latest_releases fuel server cfg repo w0 =
        Raised (KeyError "x-ratelimit-reset") (after_request w repo p)
  end.
Proof.
  intros Harr Hs Hhit Hfuel. rewrite (get_latest_releases_at _ _ _ _ _ _ _ _ Harr Hfuel).
  destruct (x_ratelimit_reset headers) as [reset|] eqn:Hreset.
  - destruct (Datetime.representable reset) eqn:Hok.
    + by rewrite (fetch_page_rate_limit _ _ _ _ _ _ _ _ _ _ _ Hs Hhit Hreset Hok).
    + destruct (fetch_page_rate_limit_raises server (fetch_history cfg)
                  (get_monorepo_artifacts cfg repo) repo p acc w _ _ _ Hs Hhit)
        as (e & -> & He & _); [by rewrite Hreset |].
      exists e. by rewrite He.
  - destruct (fetch_page_rate_limit_raises server (fetch_history cfg)
                (get_monorepo_artifacts cfg repo) repo p acc w _ _ _ Hs Hhit)
      as (e & -> & He & Hkey); [by rewrite Hreset |].
    by rewrite (Hkey Hreset).
Qed.

(** C10: an empty first page and a transport error end the fetch with
    [{'': (None, None)}] in either mode, whatever is configured and
    whatever has been accumulated; in history mode every other result
    holds a list for each key. *)
Theorem C10_neutral_result
    (server : Server) (cfg : Config) (repo : string) (w0 : World) :
  (forall status_code headers fuel,
     server repo 1 = HttpResponse status_code headers [] /\
     rate_limit_hit status_code headers = false /\
     is_error_status status_code = false /\
     1 <= fuel ->
     get_latest_releases fuel server cfg repo w0 =
       Done [("", Latest None None)] (after_request w0 repo 1)) /\
  (forall p acc w fuel,
     gets_to server cfg repo w0 p acc w /\
     transport_error (server repo p) /\
     p <= fuel ->
     get_latest_releases fuel server cfg repo w0 =
       Done [("", Latest None None)] (after_request w repo p)) /\
  (forall fuel exit result w',
     fetch_history cfg = true /\
     fetch_releases fuel server cfg repo w0 = Done (exit, result) w' /\
     exit <> NoReleasesReturn ->
     get_latest_releases fuel server cfg repo w0 = Done result w' /\
     forall k v, Dict.get result k = Some v -> exists l, v = Hist l).
Proof.
  split; [|split].
  - intros st hd fuel (Hs & Hhit & Herr & Hfuel).
    rewrite (get_latest_releases_at server cfg repo w0 1 (start cfg repo) w0 fuel);
      [|constructor | done].
    by rewrite (fetch_page_no_releases _ _ _ _ _ _ _ _ Hs Hhit Herr).
  - intros p acc w fuel (Harr & Herr & Hfuel).
    rewrite (get_latest_releases_at _ _ _ _ _ _ _ _ Harr Hfuel).
    by rewrite (fetch_page_transport_error _ _ _ _ _ _ _ Herr).
  - intros fuel exit result w' (Hh & Hrun & Hexit). split.
    + unfold get_latest_releases. run_m. by rewrite Hrun.
    + intros k v Hget.
      exact (well_shaped_get true _ _ _
               (history_results_are_lists _ _ _ _ _ _ _ _ Hh Hrun Hexit) Hget).
Qed.

(** ** Scenarios *)

(** C1 fails on the code. In latest-only mode with the default allow-list,
    the second release of the full first page fills the last open slot and
    the [break] of line 388 leaves the [for] loop only: the page is full,
    so page 2 is requested. *)
Theorem C1_next_page_requested_after_all_found :
  length c1_page1 = per_page /\
  (exists w1,
     process_page false [""] (start (default_config false "o/r") "o/r") c1_page1
       empty_world = Done c1_found w1 /\
     classified w1 = [stable_release "v2.0.0"; pre_release "v2.1.0-rc1"] /\
     all_found (Dict.values c1_found) w1 = Done true w1) /\
  (exists result w2,
     get_latest_releases 5 c1_server (default_config false "o/r") "o/r" empty_world =
       Done result w2 /\
     requested w2 = [("o/r", 1); ("o/r", 2)]).
Proof.
  split; [reflexivity |]. split.
  - eexists. split; [vm_compute; reflexivity |]. split; reflexivity.
  - eexists _, _. split; [vm_compute; reflexivity | reflexivity].
Qed.

(** What the fetch of [c1_server] returns: the release [x/v0.9] of page 1
    comes after the [break] and is never classified, and the slot of [x]
    holds [x/v1.0] of page 2. *)
Example c1_result :
  exists w2,
    get_latest_releases 5 c1_server (default_config false "o/r") "o/r" empty_world =
      Done (c1_found ++ [("x", Latest (Some (mkReleaseInfo "x/v1.0" no_notes false)) None)])
        w2 /\
    classified w2 =
      [stable_release "v2.0.0"; pre_release "v2.1.0-rc1"; stable_release "x/v1.0"].
Proof. eexists. split; [vm_compute; reflexivity | reflexivity]. Qed.

(** C3 fails on the code. In history mode the neutral result
    [{'': (None, None)}] of the failed fetch is iterated as a list of
    releases: [save_release_notes] is called with [None], its handler
    raises [AttributeError] on [release.tag], and nothing between there and
    [main] catches it: [c/d] is never asked for. In latest-only mode the
    same batch goes through. *)
Theorem C3_history_mode_error_aborts_batch :
  (exists w',
     main 3 c3_server (default_config true "a/b,c/d") empty_world =
       Raised AttributeError w' /\
     requested w' = [("a/b", 1)] /\ summaries w' = []) /\
  (exists w',
     main 3 c3_server (default_config false "a/b,c/d") empty_world = Done tt w' /\
     requested w' = [("a/b", 1); ("c/d", 1)] /\
     summaries w' = [("a/b", [("", (0, 0))]); ("c/d", [("", (1, 0))])]).
Proof.
  split; eexists; (split; [vm_compute; reflexivity | split; reflexivity]).
Qed.

Lemma c9_gets_to :
  gets_to c9_server (default_config false "o/r") "o/r" empty_world 2 c9_acc c9_world.
Proof.
  unfold gets_to.
  apply (arrives_next _ _ _ _ _ _ _ 1 (start (default_config false "o/r") "o/r")
           empty_world).
  - constructor.
  - vm_compute. reflexivity.
Qed.

Lemma c9_bare_gets_to :
  gets_to c9_bare_server (default_config false "o/r") "o/r" empty_world 2 c9_acc c9_world.
Proof.
  unfold gets_to.
  apply (arrives_next _ _ _ _ _ _ _ 1 (start (default_config false "o/r") "o/r")
           empty_world).
  - constructor.
  - vm_compute. reflexivity.
Qed.

(** C9 fails on the code when the 403 response carries no reset time that
    line 319 can read. Before the [return] of line 323, line 319 looks up
    [X-RateLimit-Reset] and converts it for the message of line 320: where
    the header is missing (only the presence of [X-RateLimit-Remaining] is
    tested, at line 315) the lookup raises [KeyError], and where the
    timestamp is outside the years the clock knows the conversion raises
    [ValueError]; neither is a [RequestException], so the exception leaves
    [get_latest_releases] and ends the batch, and the accumulator is
    lost. With a reset time that line 319 can read, the fetch returns the
    accumulator it had. *)
Theorem C9_rate_limit_return_needs_reset_time :
  get_latest_releases 2 c9_bare_server (default_config false "o/r") "o/r" empty_world =
    Raised (KeyError "x-ratelimit-reset") (after_request c9_world "o/r" 2) /\
  get_latest_releases 2 c9_millis_server (default_config false "o/r") "o/r" empty_world =
    Raised ValueError (after_request c9_world "o/r" 2) /\
  (exists w',
     main 2 c9_bare_server (default_config false "o/r,c/d") empty_world =
       Raised (KeyError "x-ratelimit-reset") w' /\
     requested w' = [("o/r", 1); ("o/r", 2)] /\ summaries w' = []) /\
  get_latest_releases 2 c9_server (default_config false "o/r") "o/r" empty_world =
    Done c9_acc (after_request c9_world "o/r" 2) /\
  (forall server cfg repo w0 p acc w status_code headers json fuel,
     gets_to server cfg repo w0 p acc w ->
     server repo p = HttpResponse status_code headers json ->
     rate_limit_hit status_code headers = true ->
     p <= fuel ->
     match x_ratelimit_reset headers with
     | Some reset =>
         if Datetime.representable reset
         then get_latest_releases fuel server cfg repo w0 =
                Done acc (after_request w repo p)
         else exists e,
                get_latest_releases fuel server cfg repo w0 =
                  Raised e (after_request w repo p)
     | None =>
         get_latest_releases fuel server cfg repo w0 =
           Raised (KeyError "x-ratelimit-reset") (after_request w repo p)
     end).
Proof.
  split; [|split; [|split; [|split]]].
  - exact (rate_limit_returns_accumulator c9_bare_server (default_config false "o/r")
             "o/r" empty_world 2 c9_acc c9_world 403%Z (mkHeaders (Some 0%Z) None) [] 2
             c9_bare_gets_to eq_refl eq_refl (le_n 2)).
  - vm_compute. reflexivity.
  - eexists. split; [vm_compute; reflexivity |]. split; reflexivity.
  - exact (rate_limit_returns_accumulator c9_server (default_config false "o/r")
             "o/r" empty_world 2 c9_acc c9_world 403%Z
             (mkHeaders (Some 0%Z) (Some 1700000000%Z)) [] 2
             c9_gets_to eq_refl eq_refl (le_n 2)).
  - intros *. apply rate_limit_returns_accumulator.
Qed.

Lemma c10_gets_to :
  gets_to c10_broken_server c10_config "o/r" empty_world 2 c10_acc c9_world.
Proof.
  unfold gets_to.
  apply (arrives_next _ _ _ _ _ _ _ 1 (start c10_config "o/r") empty_world).
  - constructor.
  - vm_compute. reflexivity.
Qed.

Lemma C10_neutral_result_witness :
  get_latest_releases 1 c10_empty_server c10_config "o/r" empty_world =
    Done [("", Latest None None)] (after_request empty_world "o/r" 1) /\
  get_latest_releases 2 c10_broken_server c10_config "o/r" empty_world =
    Done [("", Latest None None)] (after_request c9_world "o/r" 2) /\
  (get_latest_releases 1 c3_server c10_config "c/d" empty_world =
     Done [("op-node", Hist []); ("", Hist [mkReleaseInfo "v1.0.0" no_notes false])]
       (mkWorld ∅ [("c/d", 1)] [stable_release "v1.0.0"] []) /\
   forall k v,
     Dict.get [("op-node", Hist []); ("", Hist [mkReleaseInfo "v1.0.0" no_notes false])] k
       = Some v ->
     exists l, v = Hist l).
Proof.
  split; [|split].
  - apply (proj1 (C10_neutral_result c10_empty_server c10_config "o/r" empty_world)
             200%Z no_headers 1).
    repeat split; lia.
  - apply (proj1 (proj2 (C10_neutral_result c10_broken_server c10_config "o/r"
                           empty_world)) 2 c10_acc c9_world 2).
    split; [apply c10_gets_to |]. split; [|lia].
    right. exists 502%Z, no_headers, []. repeat split; lia.
  - apply (proj2 (proj2 (C10_neutral_result c3_server c10_config "c/d" empty_world))
             1 LoopEnd).
    split; [reflexivity |]. split; [vm_compute; reflexivity | done].
Defined.

(** ** The keys of the result *)

Lemma match_configured_in cfg r :
  match_configured cfg r = "" \/
  (match_configured cfg r <> "" /\ match_configured cfg r ∈ cfg).
Proof.
  induction cfg as [|a cfg IH]; simpl; [by left |].
  destruct (artifact_matches a r) eqn:Hm.
  - right. apply artifact_matches_spec in Hm as [Hne _]. split; [done | by left].
  - destruct IH as [IH | [IH1 IH2]]; [by left | right]. split; [done | by right].
Qed.

(** Where the key of a release comes from: the allow-list, the tag, or
    neither. *)
Lemma classify_cases cfg r k :
  classify cfg r = k <->
  (k <> "" /\ k ∈ cfg /\ match_configured cfg r = k) \/
  (takes_fallback cfg r = true /\ k = Str.before "/" (tag_name r)) \/
  (k = "" /\ match_configured cfg r = "" /\ Str.contains "/" (tag_name r) = false).
Proof.
  unfold classify, takes_fallback.
  destruct (match_configured_in cfg r) as [Hm | [Hne Hin]].
  - rewrite Hm. simpl. destruct (Str.contains "/" (tag_name r)); naive_solver.
  - rewrite (proj2 (truthy_true _) Hne). simpl. naive_solver.
Qed.

Lemma keys_invariant_step h cfg log0 acc r w acc' stop w' :
  keys_invariant h cfg log0 acc (classified w) ->
  draft r = false ->
  process_release h cfg acc r w = Done (acc', stop) w' ->
  keys_invariant h cfg log0 acc' (classified w').
Proof.
  intros (seen & Hlog & Hshape & Hkeys) _ Hstep.
  assert (classified w' = classified w ++ [r] /\ well_shaped h acc' /\
          forall k', k' ∈ Dict.keys acc' <-> k' = classify cfg r \/ k' ∈ Dict.keys acc)
    as (Hlog' & Hshape' & Hkeys').
  { destruct h.
    - by apply process_release_history in Hstep.
    - apply process_release_latest in Hstep; [|done]. tauto. }
  exists (seen ++ [r]). split; [by rewrite Hlog', Hlog, app_assoc |]. split; [done |].
  intros k. rewrite Hkeys', Hkeys. split.
  - intros [-> | [? | (r' & Hr' & <-)]]; [right | by left | right].
    + exists r. split; [|done]. apply elem_of_app. right. by left.
    + exists r'. split; [|done]. apply elem_of_app. by left.
  - intros [? | (r' & Hr' & <-)]; [right; by left |].
    apply elem_of_app in Hr' as [Hr' | ->%list_elem_of_singleton]; [|by left].
    right; right. by exists r'.
Qed.

Lemma keys_invariant_start h cfg log0 :
  keys_invariant h cfg log0 (init_accumulator h cfg []) log0.
Proof.
  exists []. split; [by rewrite app_nil_r |].
  split; [apply well_shaped_init; constructor |].
  intros k. rewrite keys_init. split.
  - intros [? | ?%elem_of_nil]; [by left | done].
  - intros [? | (r & ?%elem_of_nil & _)]; [by left | done].
Qed.

(** C2, as stated, fails: with the allow-list [['op-node']] and one
    release that matches no key and has no separator in its tag, the
    result of latest-only mode has the key [''], which is neither
    configured nor derived from a tag. *)
Lemma C2_counterexample :
  exists result w',
    get_latest_releases 1 c2_server c2_config "o/r" empty_world = Done result w' /\
    classified w' = [c2_release] /\
    draft c2_release = false /\
    takes_fallback ["op-node"] c2_release = false /\
    ("" ∉ get_monorepo_artifacts c2_config "o/r") /\
    Dict.keys result = ["op-node"; ""].
Proof.
  eexists _, _. split; [vm_compute; reflexivity |].
  split; [reflexivity |]. split; [reflexivity |]. split; [reflexivity |].
  split; [|reflexivity].
  simpl. by intros [=]%list_elem_of_singleton.
Qed.

(** C2, amended: a result that is not the neutral one has exactly the
    keys of the allow-list, the keys derived from the tags of the releases
    that were classified, and the empty key when one of these releases
    matched no configured key and had no separator in its tag. *)
Theorem C2_keys_of_result
    (fuel : nat) (server : Server) (cfg : Config) (repo : string) (w : World)
    (exit : Exit) (result : Accumulator) (w' : World) :
  fetch_releases fuel server cfg repo w = Done (exit, result) w' ->
  exit <> NoReleasesReturn ->
  get_latest_releases fuel server cfg repo w = Done result w' /\
  exists seen,
    classified w' = classified w ++ seen /\
    forall k,
      k ∈ Dict.keys result <->
      k ∈ get_monorepo_artifacts cfg repo \/
      (exists r, r ∈ seen /\
         takes_fallback (get_monorepo_artifacts cfg repo) r = true /\
         k = Str.before "/" (tag_name r)) \/
      (k = "" /\
       exists r, r ∈ seen /\
         match_configured (get_monorepo_artifacts cfg repo) r = "" /\
         Str.contains "/" (tag_name r) = false).
Proof.
  intros Hrun Hexit. split.
  { unfold get_latest_releases. run_m. by rewrite Hrun. }
  unfold fetch_releases in Hrun.
  apply (fetch_loop_invariant (fetch_history cfg) (get_monorepo_artifacts cfg repo)
           (keys_invariant (fetch_history cfg) (get_monorepo_artifacts cfg repo)
              (classified w))) in Hrun; [| |apply keys_invariant_start | done].
  - destruct Hrun as (seen & Hlog & _ & Hkeys). exists seen. split; [done |].
    intros k. rewrite Hkeys. split.
    + intros [? | (r & Hr & Hk)]; [by left |].
      apply classify_cases in Hk as [(_ & ? & _) | [[? ?] | (? & ? & ?)]].
      * by left.
      * right; left. by exists r.
      * right; right. split; [done |]. by exists r.
    + intros [? | [(r & Hr & Hf & Hk) | (-> & r & Hr & Hm & Hc)]]; [by left | |];
        right; exists r; (split; [done |]); apply classify_cases.
      * right; left. done.
      * right; right. done.
  - intros acc r w1 acc' stop w1'. apply keys_invariant_step.
Qed.

Lemma C2_keys_of_result_witness :
  get_latest_releases 1 c2_server c2_config "o/r" empty_world =
    Done [("op-node", Latest None None);
          ("", Latest (Some (mkReleaseInfo "v1.0.0" "notes" false)) None)]
      (mkWorld ∅ [("o/r", 1)] [c2_release] []) /\
  exists seen,
    classified (mkWorld ∅ [("o/r", 1)] [c2_release] []) = classified empty_world ++ seen /\
    forall k,
      k ∈ Dict.keys [("op-node", Latest None None);
                     ("", Latest (Some (mkReleaseInfo "v1.0.0" "notes" false)) None)] <->
      k ∈ get_monorepo_artifacts c2_config "o/r" \/
      (exists r, r ∈ seen /\
         takes_fallback (get_monorepo_artifacts c2_config "o/r") r = true /\
         k = Str.before "/" (tag_name r)) \/
      (k = "" /\
       exists r, r ∈ seen /\
         match_configured (get_monorepo_artifacts c2_config "o/r") r = "" /\
         Str.contains "/" (tag_name r) = false).
Proof.
  apply (C2_keys_of_result 1 c2_server c2_config "o/r" empty_world LoopEnd).
  - vm_compute. reflexivity.
  - done.
Defined.

(** ** Filled slots and the first release of a key *)

Lemma first_release_snoc cfg k pre seen r :
  first_release cfg k pre (seen ++ [r]) =
    match first_release cfg k pre seen with
    | Some x => Some x
    | None =>
        if decide (classify cfg r = k /\ prerelease r = pre)
        then Some (make_release_info r) else None
    end.
Proof.
  unfold first_release. rewrite filter_app.
  destruct (filter _ seen) as [|x xs]; simpl; [|done].
  rewrite filter_cons, filter_nil. by case_decide.
Qed.

(** A filled slot survives an offer. *)
Lemma offer_keeps r v stable pre :
  v = Latest stable pre ->
  exists stable' pre',
    offer r v = Latest stable' pre' /\
    (is_Some stable -> stable' = stable) /\ (is_Some pre -> pre' = pre).
Proof.
  intros ->. simpl. destruct (prerelease r).
  - eexists _, _. split; [done |]. split; [done |]. by intros [x ->].
  - eexists _, _. split; [done |]. split; [|done]. by intros [x ->].
Qed.

Lemma first_invariant_step cfg log0 acc r w acc' stop w' :
  first_invariant cfg log0 acc (classified w) ->
  draft r = false ->
  process_release false cfg acc r w = Done (acc', stop) w' ->
  first_invariant cfg log0 acc' (classified w').
Proof.
  intros (seen & Hlog & Hshape & Hslots) _ Hstep.
  apply process_release_latest in Hstep as (Hlog' & Hshape' & Hslot & Hother & _);
    [|done].
  exists (seen ++ [r]). split; [by rewrite Hlog', Hlog, app_assoc |]. split; [done |].
  intros k. rewrite !first_release_snoc.
  destruct (decide (classify cfg r = k)) as [<- | Hne].
  - rewrite Hslot, Hslots. simpl. destruct (prerelease r) eqn:Hpre.
    + f_equal.
      * destruct (first_release _ _ false seen); [done |].
        case_decide as H; [by destruct H | done].
      * destruct (first_release _ _ true seen); [done |].
        case_decide as H; [done | by destruct H].
    + f_equal.
      * destruct (first_release _ _ false seen); [done |].
        case_decide as H; [done | by destruct H].
      * destruct (first_release _ _ true seen); [done |].
        case_decide as H; [by destruct H | done].
  - rewrite Hother, Hslots by done. f_equal.
    + destruct (first_release _ _ false seen); [done |].
      case_decide as H; [by destruct H | done].
    + destruct (first_release _ _ true seen); [done |].
      case_decide as H; [by destruct H | done].
Qed.

Lemma first_invariant_start cfg log0 :
  first_invariant cfg log0 (init_accumulator false cfg []) log0.
Proof.
  exists []. split; [by rewrite app_nil_r |].
  split; [apply well_shaped_init; constructor |].
  intros k. by apply init_accumulator_slots.
Qed.

(** Only an empty first page ends the loop with [NoReleasesReturn], and
    the result is then the neutral one. *)
Lemma fetch_loop_no_releases fuel server h cfg repo p acc w result w' :
  fetch_loop fuel server h cfg repo p acc w = Done (NoReleasesReturn, result) w' ->
  result = neutral_result.
Proof.
  revert p acc w. induction fuel as [|fuel IH]; intros p acc w; simpl; [done |].
  run_m.
  destruct (fetch_page server h cfg repo p acc w) as [step w1| |] eqn:Hstep; [|done..].
  destruct step as [acc1|acc1|exit1 acc1]; [by apply IH | done |].
  intros [= -> <- <-]. revert Hstep. unfold fetch_page. run_m. simpl.
  destruct (server repo p) as [|st hd releases]; [done |].
  destruct (rate_limit_hit st hd); [rate_limit_return_cases; done |].
  destruct (is_error_status st); [done |].
  destruct releases as [|r releases].
  - destruct (p =? 1)%nat; [by intros [= <-] | done].
  - destruct (process_page _ _ _ _ _) as [acc2 w2| |]; [|done..].
    destruct (_ <? _)%nat; [done |].
    next_page_cases; done.
Qed.

(** A result of [get_latest_releases] is the neutral one or the
    accumulator the loop or the rate-limit check returned. *)
Lemma get_latest_releases_cases fuel server cfg repo w result w' :
  get_latest_releases fuel server cfg repo w = Done result w' ->
  result = neutral_result \/
  exists exit,
    exit <> NoReleasesReturn /\
    fetch_releases fuel server cfg repo w = Done (exit, result) w'.
Proof.
  unfold get_latest_releases. run_m.
  destruct (fetch_releases fuel server cfg repo w) as [[exit res] w1|e w1|] eqn:Hrun;
    [| |done].
  - intros [= <- <-]. destruct exit.
    + right. by exists LoopEnd.
    + right. by exists RateLimitReturn.
    + left. by apply fetch_loop_no_releases in Hrun.
  - destruct (is_request_exception e); [|done]. intros [= <- _]. by left.
Qed.

Lemma first_seen_wins_run fuel server cfg repo w exit result w' :
  fetch_history cfg = false ->
  fetch_releases fuel server cfg repo w = Done (exit, result) w' ->
  exit <> NoReleasesReturn ->
  exists seen,
    classified w' = classified w ++ seen /\
    forall k,
      slot_of result k =
        Latest (first_release (get_monorepo_artifacts cfg repo) k false seen)
               (first_release (get_monorepo_artifacts cfg repo) k true seen).
Proof.
  intros Hmode Hrun Hexit.
  unfold fetch_releases in Hrun. rewrite Hmode in Hrun.
  apply (fetch_loop_invariant false (get_monorepo_artifacts cfg repo)
           (first_invariant (get_monorepo_artifacts cfg repo) (classified w)))
    in Hrun; [| |apply first_invariant_start | done].
  - destruct Hrun as (seen & Hlog & _ & Hslots). by exists seen.
  - intros acc r w1 acc' stop w1'. apply first_invariant_step.
Qed.

(** In latest-only mode a release leaves every filled slot as it is. *)
Lemma filled_slot_is_kept cfg acc r w acc' stop w' k stable pre :
  well_shaped false acc ->
  process_release false cfg acc r w = Done (acc', stop) w' ->
  slot_of acc k = Latest stable pre ->
  exists stable' pre',
    slot_of acc' k = Latest stable' pre' /\
    (is_Some stable -> stable' = stable) /\ (is_Some pre -> pre' = pre).
Proof.
  intros Hshape Hstep Hslot.
  apply process_release_latest in Hstep as (_ & _ & Hk & Hother & _); [|done].
  destruct (decide (classify cfg r = k)) as [<- | Hne].
  - rewrite Hk. by apply offer_keeps.
  - rewrite Hother by done. by exists stable, pre.
Qed.

Example c4_fetch :
  fetch_releases 1 c4_server c4_config "o/r" empty_world = Done (LoopEnd, c4_result) c4_world.
Proof. vm_compute. reflexivity. Qed.

(** C4 fails on the code. A filled slot is never overwritten, but what a
    slot holds need not be the first release of its key and category in
    page-arrival order. On the full first page of [c1_server] the [break]
    of line 388 passes over the rest of the page, [x/v0.9] included, once
    the slots of the key [''] are filled; the [while] loop goes on all the
    same (the slip of C1), and page 2 puts the later release [x/v1.0] into
    the empty stable slot of [x]. *)
Theorem C4_first_arrival_is_not_stored :
  (exists result w',
     get_latest_releases 5 c1_server (default_config false "o/r") "o/r" empty_world =
       Done result w' /\
     arrived c1_server (requested w') = c1_page1 ++ [stable_release "x/v1.0"] /\
     first_release [""] "x" false (published (arrived c1_server (requested w'))) =
       Some (mkReleaseInfo "x/v0.9" no_notes false) /\
     slot_of result "x" = Latest (Some (mkReleaseInfo "x/v1.0" no_notes false)) None /\
     classified w' =
       [stable_release "v2.0.0"; pre_release "v2.1.0-rc1"; stable_release "x/v1.0"]) /\
  (forall cfg acc r w acc' stop w' k stable pre,
     well_shaped false acc ->
     process_release false cfg acc r w = Done (acc', stop) w' ->
     slot_of acc k = Latest stable pre ->
     exists stable' pre',
       slot_of acc' k = Latest stable' pre' /\
       (is_Some stable -> stable' = stable) /\ (is_Some pre -> pre' = pre)).
Proof.
  split.
  - eexists _, _. split; [vm_compute; reflexivity |].
    split; [vm_compute; reflexivity |]. split; [vm_compute; reflexivity |].
    split; reflexivity.
  - intros *. apply filled_slot_is_kept.
Qed.

(** * Further properties of the aggregator *)

(** ** What the fetch leaves alone *)

Lemma unpack_world v w : outcome (unpack v w) (fun w' => w' = w).
Proof. by destruct v as [[|a [|b [|? ?]]]|s p]. Qed.

Lemma all_found_outcome values w : outcome (all_found values w) (fun w' => w' = w).
Proof.
  induction values as [|v values IH]; simpl; [done |]. run_m.
  destruct v as [[|a [|b [|? ?]]]|s p]; simpl; try done;
    repeat case_bool_decide; simpl; done.
Qed.

Lemma store_release_outcome h acc k r w :
  outcome (store_release h acc k r w) (fun w' => w' = w).
Proof.
  unfold store_release. destruct h.
  - by destruct (Dict.get acc k) as [[l|? ?]|].
  - run_m. destruct (default _ _) as [[|a [|b [|? ?]]]|s p]; simpl; try done;
      destruct (prerelease r); simpl; repeat case_bool_decide; simpl; done.
Qed.

(** One release, whatever becomes of it, is logged and leaves the rest of
    the world as it was. *)
Lemma process_release_outcome h cfg acc r w :
  outcome (process_release h cfg acc r w) (fun w' =>
    fs w' = fs w /\ requested w' = requested w /\ summaries w' = summaries w /\
    classified w' = classified w ++ [r]).
Proof.
  unfold process_release. destruct (classify_release h cfg acc r) as [k acc1].
  run_m. cbn -[store_release all_found].
  pose proof (store_release_outcome h acc1 k r
                (mkWorld (fs w) (requested w) (classified w ++ [r]) (summaries w)))
    as Hstore.
  destruct (store_release h acc1 k r _) as [acc2 w2|e w2|]; simpl in Hstore;
    [|by subst w2 | done].
  subst w2. destruct h; simpl; [done |].
  pose proof (all_found_outcome (Dict.values acc2)
                (mkWorld (fs w) (requested w) (classified w ++ [r]) (summaries w)))
    as Hfound.
  destruct (all_found _ _) as [b w3|e w3|]; simpl in Hfound; [| |done]; by subst w3.
Qed.

(** A page: the releases logged are published releases of the page, in
    their order, from the first one on. *)
Lemma process_page_outcome h cfg releases acc w :
  outcome (process_page h cfg acc releases w) (fun w' =>
    fs w' = fs w /\ requested w' = requested w /\ summaries w' = summaries w /\
    exists n, classified w' = classified w ++ take n (published releases)).
Proof.
  revert acc w. induction releases as [|r releases IH]; intros acc w; simpl.
  - do 3 (split; [done |]). exists 0. by rewrite app_nil_r.
  - unfold published. rewrite filter_cons. destruct (draft r) eqn:Hdraft.
    + rewrite decide_False by done. apply IH.
    + rewrite decide_True by done. run_m.
      pose proof (process_release_outcome h cfg acc r w) as Hr.
      destruct (process_release h cfg acc r w) as [[acc1 stop] w1|e w1|];
        simpl in Hr; [| |done].
      * destruct Hr as (Hfs & Hreq & Hsum & Hlog). destruct stop; simpl.
        -- do 3 (split; [done |]). by exists 1.
        -- specialize (IH acc1 w1).
           destruct (process_page h cfg acc1 releases w1) as [acc2 w2|e w2|];
             simpl in *; [| |done];
             destruct IH as (Hfs2 & Hreq2 & Hsum2 & n & Hlog2);
             (split; [congruence |]); (split; [congruence |]);
             (split; [congruence |]); exists (S n);
             rewrite Hlog2, Hlog, <- app_assoc; done.
      * destruct Hr as (Hfs & Hreq & Hsum & Hlog). simpl.
        do 3 (split; [done |]). by exists 1.
Qed.

(** One turn of the loop sends one request, for its page. *)
Lemma fetch_page_outcome server h cfg repo p acc w :
  outcome (fetch_page server h cfg repo p acc w) (fun w' =>
    fs w' = fs w /\ summaries w' = summaries w /\
    requested w' = requested w ++ [(repo, p)]).
Proof.
  unfold fetch_page. run_m. simpl.
  destruct (server repo p) as [|st hd releases]; [done |].
  destruct (rate_limit_hit st hd); [rate_limit_return_cases; done |].
  destruct (is_error_status st); [done |].
  destruct releases as [|r releases]; [by destruct (p =? 1)%nat |].
  pose proof (process_page_outcome h cfg (r :: releases) acc
                (mkWorld (fs w) (requested w ++ [(repo, p)]) (classified w) (summaries w)))
    as Hpage.
  destruct (process_page h cfg acc (r :: releases) _) as [acc1 w1|e w1|];
    simpl in Hpage; [| |done].
  - destruct Hpage as (? & ? & ? & _).
    destruct (_ <? _)%nat; [done |].
    next_page_cases; done.
  - by destruct Hpage as (? & ? & ? & _).
Qed.

Lemma pages_from_snoc repo p n :
  pages_from repo p (S n) = (repo, p) :: pages_from repo (p + 1) n.
Proof. unfold pages_from. simpl. by replace (p + 1) with (S p) by lia. Qed.

Lemma fetch_loop_outcome fuel server h cfg repo p acc w :
  outcome (fetch_loop fuel server h cfg repo p acc w) (fun w' =>
    fs w' = fs w /\ summaries w' = summaries w /\
    exists n, 1 <= n <= fuel /\ requested w' = requested w ++ pages_from repo p n).
Proof.
  revert p acc w. induction fuel as [|fuel IH]; intros p acc w; simpl; [done |].
  run_m.
  pose proof (fetch_page_outcome server h cfg repo p acc w) as Hpage.
  destruct (fetch_page server h cfg repo p acc w) as [step w1|e w1|];
    simpl in Hpage; [| |done].
  - destruct Hpage as (Hfs & Hsum & Hreq).
    destruct step as [acc1|acc1|exit1 acc1]; simpl;
      try (split; [done |]; split; [done |]; exists 1; split; [lia | done]).
    specialize (IH (p + 1) acc1 w1).
    destruct (fetch_loop fuel server h cfg repo (p + 1) acc1 w1) as [[? ?] w2|e w2|];
      simpl in *; [| |done];
      destruct IH as (Hfs2 & Hsum2 & n & Hn & Hreq2);
      (split; [congruence |]); (split; [congruence |]);
      exists (S n); (split; [lia |]);
      rewrite Hreq2, Hreq, <- app_assoc, pages_from_snoc; done.
  - destruct Hpage as (Hfs & Hsum & Hreq). simpl.
    split; [done |]. split; [done |]. exists 1. split; [lia | done].
Qed.

Lemma get_latest_releases_frame fuel server cfg repo w :
  outcome (get_latest_releases fuel server cfg repo w) (fun w' =>
    fs w' = fs w /\ summaries w' = summaries w /\
    exists n, 1 <= n <= fuel /\ requested w' = requested w ++ pages_from repo 1 n).
Proof.
  rewrite get_latest_releases_unfold.
  pose proof (fetch_loop_outcome fuel server (fetch_history cfg)
                (get_monorepo_artifacts cfg repo) repo 1
                (init_accumulator (fetch_history cfg) (get_monorepo_artifacts cfg repo) [])
                w) as Hloop.
  destruct (fetch_loop _ _ _ _ _ _ _ _) as [[exit result] w1|e w1|];
    simpl in Hloop; [done | |done].
  by destruct (is_request_exception e).
Qed.


(** ** Latest-only mode: what the fetch can raise *)

Lemma all_found_latest acc w :
  well_shaped false acc ->
  exists b, all_found (Dict.values acc) w = Done b w /\ (b = true <-> all_filled acc).
Proof.
  unfold well_shaped, all_filled.
  induction 1 as [|[k v] acc (s & p & Hv) Hacc (b & Hb & Hiff)]; simpl.
  - exists true. split; [done |]. split; [by constructor | done].
  - simpl in Hv. subst v. run_m. simpl.
    destruct s as [s|], p as [p|]; simpl;
      try (exists false; split; [done |]; split; [done |];
           intros Hall; apply Forall_cons in Hall as [(? & ? & [=]) _]).
    exists b. split; [done |]. rewrite Hiff. split.
    + intros Hall. constructor; [by eexists _, _ | done].
    + by intros [_ ?]%Forall_cons.
Qed.

Lemma store_release_latest_total acc k r w :
  well_shaped false acc ->
  exists acc', store_release false acc k r w = Done acc' w.
Proof.
  intros Hacc. unfold store_release. run_m.
  assert (Hshape : shape false (default (Latest None None) (Dict.get acc k))).
  { destruct (Dict.get acc k) eqn:Hget;
      [exact (well_shaped_get false _ _ _ Hacc Hget) | by eexists _, _]. }
  destruct Hshape as (s & p & ->). simpl.
  destruct (prerelease r), s, p; simpl; repeat case_bool_decide; simpl; eauto.
Qed.

Lemma process_release_latest_total cfg acc r w :
  well_shaped false acc ->
  exists acc' stop w',
    process_release false cfg acc r w = Done (acc', stop) w' /\
    well_shaped false acc' /\ (stop = true <-> all_filled acc').
Proof.
  intros Hacc.
  destruct (process_release false cfg acc r w) as [[acc' stop] w'|e w'|] eqn:Hrun.
  - exists acc', stop, w'. split; [done |].
    pose proof Hrun as (_ & Hacc' & _)%process_release_latest; [|done].
    split; [done |].
    revert Hrun. unfold process_release.
    destruct (classify_release false cfg acc r) as [k acc1].
    run_m. cbn -[store_release all_found].
    destruct (store_release false acc1 k r _) as [acc2 w2| |]; [|done..].
    destruct (all_found_latest acc' w2 Hacc') as (b & Hb & Hiff).
    destruct (all_found (Dict.values acc2) w2) as [b2 w3| |] eqn:Hfound; [|done..].
    intros [= -> -> ->]. rewrite Hb in Hfound. by injection Hfound as ->.
  - exfalso. revert Hrun. unfold process_release.
    assert (exists acc1, classify_release false cfg acc r = (classify cfg r, acc1) /\
              well_shaped false acc1) as (acc1 & -> & Hacc1).
    { destruct (classify_release_cases false cfg acc r) as [-> | (_ & _ & ->)];
        eexists; (split; [done |]); [done |].
      apply well_shaped_set; [done | by eexists _, _]. }
    run_m. cbn -[store_release all_found].
    destruct (store_release_latest_total acc1 (classify cfg r) r
                (mkWorld (fs w) (requested w) (classified w ++ [r]) (summaries w)) Hacc1)
      as (acc2 & Hstore).
    rewrite Hstore.
    pose proof Hstore as (_ & Hacc2 & _)%store_release_latest; [|done].
    destruct (all_found_latest acc2
                (mkWorld (fs w) (requested w) (classified w ++ [r]) (summaries w)) Hacc2)
      as (b & -> & _). done.
  - exfalso. revert Hrun. unfold process_release.
    assert (exists acc1, classify_release false cfg acc r = (classify cfg r, acc1) /\
              well_shaped false acc1) as (acc1 & -> & Hacc1).
    { destruct (classify_release_cases false cfg acc r) as [-> | (_ & _ & ->)];
        eexists; (split; [done |]); [done |].
      apply well_shaped_set; [done | by eexists _, _]. }
    run_m. cbn -[store_release all_found].
    destruct (store_release_latest_total acc1 (classify cfg r) r
                (mkWorld (fs w) (requested w) (classified w ++ [r]) (summaries w)) Hacc1)
      as (acc2 & Hstore).
    rewrite Hstore.
    pose proof Hstore as (_ & Hacc2 & _)%store_release_latest; [|done].
    destruct (all_found_latest acc2
                (mkWorld (fs w) (requested w) (classified w ++ [r]) (summaries w)) Hacc2)
      as (b & -> & _). done.
Qed.

(** A page in latest-only mode: at least its first published release is
    classified, and the rest of the page is passed over only when every
    slot is filled. *)
Lemma process_page_latest cfg releases acc w :
  well_shaped false acc ->
  exists acc' w' n,
    process_page false cfg acc releases w = Done acc' w' /\
    well_shaped false acc' /\
    classified w' = classified w ++ take n (published releases) /\
    n <= length (published releases) /\
    (published releases <> [] -> 1 <= n) /\
    (n < length (published releases) -> all_filled acc').
Proof.
  revert acc w. induction releases as [|r releases IH]; intros acc w Hacc; simpl.
  - exists acc, w, 0. run_m. split; [done |]. split; [done |].
    split; [by rewrite app_nil_r |]. split; [done |]. split; [done |].
    unfold published. simpl. lia.
  - unfold published. rewrite filter_cons. destruct (draft r) eqn:Hdraft.
    + rewrite decide_False by done. by apply IH.
    + rewrite decide_True by done. run_m.
      destruct (process_release_latest_total cfg acc r w Hacc)
        as (acc1 & stop & w1 & Hrun & Hacc1 & Hstop).
      pose proof (process_release_outcome false cfg acc r w) as Hout.
      rewrite Hrun in Hout |- *. simpl in Hout. destruct Hout as (_ & _ & _ & Hlog).
      destruct stop.
      * exists acc1, w1, 1. split; [done |]. split; [done |]. split; [done |].
        simpl. split; [lia |]. split; [lia |]. intros _. by apply Hstop.
      * destruct (IH acc1 w1 Hacc1) as (acc2 & w2 & n & Hpage & Hacc2 & Hlog2 & Hn & Hn1 & Hfill).
        exists acc2, w2, (S n). split; [done |]. split; [done |].
        split; [by rewrite Hlog2, Hlog, <- app_assoc |].
        unfold published in *. simpl.
        split; [lia |]. split; [lia |]. intros ?. apply Hfill. lia.
Qed.





(** ** History mode keeps every published release *)

Lemma hist_of_set_eq acc k l : hist_of (Dict.set acc k (Hist l)) k = l.
Proof. unfold hist_of. by rewrite get_set_eq. Qed.

Lemma hist_of_set_ne acc k k' v : k <> k' -> hist_of (Dict.set acc k v) k' = hist_of acc k'.
Proof. intros. unfold hist_of. by rewrite get_set_ne. Qed.

Lemma hist_of_set_empty acc k k' :
  Dict.get acc k = None -> hist_of (Dict.set acc k (Hist [])) k' = hist_of acc k'.
Proof.
  intros Hk. destruct (decide (k = k')) as [<- | Hne].
  - rewrite hist_of_set_eq. unfold hist_of. by rewrite Hk.
  - by apply hist_of_set_ne.
Qed.

Lemma hist_of_init cfg acc k :
  (forall k', hist_of acc k' = []) -> hist_of (init_accumulator true cfg acc) k = [].
Proof.
  revert acc. induction cfg as [|a cfg IH]; intros acc Hacc; simpl; [done |].
  apply IH. intros k'. destruct (decide (a = k')) as [<- | Hne].
  - apply hist_of_set_eq.
  - by rewrite hist_of_set_ne.
Qed.

(** One release in history mode: the loop goes on, the list of its key
    grows by the release, and every other list is as before. *)
Lemma process_release_history_slots cfg acc r w acc' stop w' :
  process_release true cfg acc r w = Done (acc', stop) w' ->
  stop = false /\
  hist_of acc' (classify cfg r) = hist_of acc (classify cfg r) ++ [make_release_info r] /\
  (forall k', classify cfg r <> k' -> hist_of acc' k' = hist_of acc k').
Proof.
  unfold process_release.
  assert (exists acc1, classify_release true cfg acc r = (classify cfg r, acc1) /\
            (forall k', hist_of acc1 k' = hist_of acc k'))
    as (acc1 & -> & Hsame).
  { destruct (classify_release_cases true cfg acc r) as [-> | (_ & Hnone & ->)].
    - by exists acc.
    - eexists. split; [done |]. intros k'. by apply hist_of_set_empty. }
  run_m. cbn -[store_release]. unfold store_release. run_m.
  destruct (Dict.get acc1 (classify cfg r)) as [[l|? ?]|] eqn:Hget; try done.
  intros [= <- <- <-]. split; [done |]. split.
  - rewrite hist_of_set_eq, <- Hsame. unfold hist_of. by rewrite Hget.
  - intros k' Hne. by rewrite hist_of_set_ne, Hsame.
Qed.

Lemma hist_invariant_step cfg log0 acc r w acc' stop w' :
  hist_invariant cfg log0 acc (classified w) ->
  draft r = false ->
  process_release true cfg acc r w = Done (acc', stop) w' ->
  hist_invariant cfg log0 acc' (classified w').
Proof.
  intros (seen & Hlog & Hshape & Hhist) _ Hstep.
  pose proof Hstep as (Hlog' & Hshape' & _)%process_release_history; [|done].
  apply process_release_history_slots in Hstep as (_ & Hk & Hother).
  exists (seen ++ [r]). split; [by rewrite Hlog', Hlog, app_assoc |]. split; [done |].
  intros k. rewrite filter_app, fmap_app, filter_cons, filter_nil.
  destruct (decide (classify cfg r = k)) as [<- | Hne].
  - by rewrite Hk, Hhist.
  - rewrite Hother, Hhist by done. simpl. by rewrite app_nil_r.
Qed.

Lemma hist_invariant_start cfg log0 :
  hist_invariant cfg log0 (init_accumulator true cfg []) log0.
Proof.
  exists []. split; [by rewrite app_nil_r |].
  split; [apply well_shaped_init; constructor |].
  intros k. by apply hist_of_init.
Qed.

Lemma history_run fuel server cfg repo w exit result w' :
  fetch_history cfg = true ->
  fetch_releases fuel server cfg repo w = Done (exit, result) w' ->
  exit <> NoReleasesReturn ->
  hist_invariant (get_monorepo_artifacts cfg repo) (classified w) result (classified w').
Proof.
  intros Hmode Hrun Hexit. unfold fetch_releases in Hrun. rewrite Hmode in Hrun.
  apply (fetch_loop_invariant true (get_monorepo_artifacts cfg repo)
           (hist_invariant (get_monorepo_artifacts cfg repo) (classified w)))
    in Hrun; [done | |apply hist_invariant_start | done].
  intros acc r w1 acc' stop w1'. apply hist_invariant_step.
Qed.

(** X3: a result of history mode that is not the neutral one holds, for
    every key, the list of all releases classified to that key, in the
    order they arrived, and has a key for every release classified. *)
Theorem X3_history_keeps_every_release
    (fuel : nat) (server : Server) (cfg : Config) (repo : string) (w : World)
    (result : Accumulator) (w' : World) :
  fetch_history cfg = true ->
  get_latest_releases fuel server cfg repo w = Done result w' ->
  result = [("", Latest None None)] \/
  exists seen,
    classified w' = classified w ++ seen /\
    (forall k v,
       Dict.get result k = Some v ->
       v = Hist (make_release_info <$>
                   filter (fun r => classify (get_monorepo_artifacts cfg repo) r = k) seen)) /\
    (forall r, r ∈ seen ->
       is_Some (Dict.get result (classify (get_monorepo_artifacts cfg repo) r))).
Proof.
  intros Hmode Hrun.
  apply get_latest_releases_cases in Hrun as [-> | (exit & Hexit & Hrun)]; [by left |].
  right. destruct (history_run _ _ _ _ _ _ _ _ Hmode Hrun Hexit)
    as (seen & Hlog & Hshape & Hhist).
  exists seen. split; [done |]. split.
  - intros k v Hget. destruct (well_shaped_get true _ _ _ Hshape Hget) as [l ->].
    rewrite <- Hhist. unfold hist_of. by rewrite Hget.
  - intros r Hr.
    pose proof (Hhist (classify (get_monorepo_artifacts cfg repo) r)) as Hk.
    unfold hist_of in Hk.
    destruct (Dict.get result _) as [v|]; [by eexists |].
    exfalso. symmetry in Hk. apply fmap_nil_inv in Hk.
    assert (r ∈ filter (fun r0 => classify (get_monorepo_artifacts cfg repo) r0 =
                                   classify (get_monorepo_artifacts cfg repo) r) seen)
      as Hin by by apply list_elem_of_filter.
    rewrite Hk in Hin. by apply elem_of_nil in Hin.
Qed.

Lemma X3_history_keeps_every_release_witness :
  [("", Hist [mkReleaseInfo "v1.0.0" "Regular release notes" false;
              mkReleaseInfo "v2.0.0-rc1" "Pre-release notes" true]);
   ("op-node", Hist [mkReleaseInfo "op-node/v1.10.2" "Monorepo release notes" false])]
    = [("", Latest None None)] \/
  exists seen,
    classified (mkWorld ∅ [("test/repo", 1)] (published MOCK_RELEASES) []) =
      classified empty_world ++ seen /\
    (forall k v,
       Dict.get
         [("", Hist [mkReleaseInfo "v1.0.0" "Regular release notes" false;
                     mkReleaseInfo "v2.0.0-rc1" "Pre-release notes" true]);
          ("op-node", Hist [mkReleaseInfo "op-node/v1.10.2" "Monorepo release notes" false])]
         k = Some v ->
       v = Hist (make_release_info <$>
                   filter (fun r => classify (get_monorepo_artifacts (mock_config true)
                                                "test/repo") r = k) seen)) /\
    (forall r, r ∈ seen ->
       is_Some
         (Dict.get
            [("", Hist [mkReleaseInfo "v1.0.0" "Regular release notes" false;
                        mkReleaseInfo "v2.0.0-rc1" "Pre-release notes" true]);
             ("op-node", Hist [mkReleaseInfo "op-node/v1.10.2" "Monorepo release notes" false])]
            (classify (get_monorepo_artifacts (mock_config true) "test/repo") r))).
Proof.
  apply (X3_history_keeps_every_release 1 mock_session (mock_config true) "test/repo"
           empty_world).
  - reflexivity.
  - vm_compute. reflexivity.
Defined.

Lemma process_page_history cfg releases acc w acc' w' :
  process_page true cfg acc releases w = Done acc' w' ->
  classified w' = classified w ++ published releases.
Proof.
  revert acc w. induction releases as [|r releases IH]; intros acc w; simpl.
  - run_m. intros [= _ <-]. by rewrite app_nil_r.
  - unfold published. rewrite filter_cons. destruct (draft r) eqn:Hdraft.
    + rewrite decide_False by done. apply IH.
    + rewrite decide_True by done. run_m.
      pose proof (process_release_outcome true cfg acc r w) as Hout.
      destruct (process_release true cfg acc r w) as [[acc1 stop] w1| |] eqn:Hr;
        [|done..].
      simpl in Hout. destruct Hout as (_ & _ & _ & Hlog).
      apply process_release_history_slots in Hr as (-> & _).
      intros Hpage. apply IH in Hpage. by rewrite Hpage, Hlog, <- app_assoc.
Qed.

(** X5: in history mode the loop over a page never stops early: when it
    ends, every published release of the page has been classified, in the
    order of the page, and no draft has. *)
Theorem X5_history_page_is_processed_whole
    (cfg : list string) (releases : list Release) (acc : Accumulator) (w : World)
    (acc' : Accumulator) (w' : World) :
  process_page true cfg acc releases w = Done acc' w' ->
  classified w' = classified w ++ filter (fun r => draft r = false) releases.
Proof. apply process_page_history. Qed.

Lemma X5_history_page_is_processed_whole_witness :
  classified (mkWorld ∅ [] (published MOCK_RELEASES) []) =
    classified empty_world ++ filter (fun r => draft r = false) MOCK_RELEASES.
Proof.
  apply (X5_history_page_is_processed_whole [""] MOCK_RELEASES [("", Hist [])] empty_world
           [("", Hist [mkReleaseInfo "v1.0.0" "Regular release notes" false;
                       mkReleaseInfo "v2.0.0-rc1" "Pre-release notes" true]);
            ("op-node",
             Hist [mkReleaseInfo "op-node/v1.10.2" "Monorepo release notes" false])]).
  vm_compute. reflexivity.
Defined.

(** X6: in latest-only mode the loop over a page always ends; it
    classifies the published releases of the page from the first one on,
    at least one if there is one, and passes the rest over only when every
    known key has both slots filled. *)
Theorem X6_latest_page_stops_only_when_all_found
    (cfg : list string) (releases : list Release) (acc : Accumulator) (w : World) :
  well_shaped false acc ->
  exists acc' w' n,
    process_page false cfg acc releases w = Done acc' w' /\
    classified w' = classified w ++ take n (filter (fun r => draft r = false) releases) /\
    n <= length (filter (fun r => draft r = false) releases) /\
    (filter (fun r => draft r = false) releases <> [] -> 1 <= n) /\
    (n < length (filter (fun r => draft r = false) releases) -> all_filled acc').
Proof.
  intros Hacc.
  destruct (process_page_latest cfg releases acc w Hacc)
    as (acc' & w' & n & Hrun & _ & Hlog & Hn & Hn1 & Hfill).
  by exists acc', w', n.
Qed.

Lemma X6_latest_page_stops_only_when_all_found_witness :
  exists acc' w' n,
    process_page false [""] [("", Latest None None)] c1_page1 empty_world = Done acc' w' /\
    classified w' =
      classified empty_world ++ take n (filter (fun r => draft r = false) c1_page1) /\
    n <= length (filter (fun r => draft r = false) c1_page1) /\
    (filter (fun r => draft r = false) c1_page1 <> [] -> 1 <= n) /\
    (n < length (filter (fun r => draft r = false) c1_page1) -> all_filled acc').
Proof.
  apply (X6_latest_page_stops_only_when_all_found [""] c1_page1 [("", Latest None None)]
           empty_world).
  constructor; [by eexists _, _ | constructor].
Defined.

(** ** No draft is stored *)

Lemma fetch_page_classified server h cfg repo p acc w :
  outcome (fetch_page server h cfg repo p acc w) (fun w' =>
    exists seen,
      classified w' = classified w ++ seen /\ Forall (fun r => draft r = false) seen).
Proof.
  unfold fetch_page. run_m. simpl.
  assert (Hnil : exists seen : list Release,
            classified w = classified w ++ seen /\ Forall (fun r => draft r = false) seen).
  { exists []. by rewrite app_nil_r. }
  destruct (server repo p) as [|st hd releases]; [done |].
  destruct (rate_limit_hit st hd); [rate_limit_return_cases; done |].
  destruct (is_error_status st); [done |].
  destruct releases as [|r releases]; [by destruct (p =? 1)%nat |].
  pose proof (process_page_outcome h cfg (r :: releases) acc
                (mkWorld (fs w) (requested w ++ [(repo, p)]) (classified w) (summaries w)))
    as Hpage.
  assert (Hseen : forall w1,
            (exists n, classified w1 = classified w ++ take n (published (r :: releases))) ->
            exists seen, classified w1 = classified w ++ seen /\
                         Forall (fun r => draft r = false) seen).
  { intros w1 [n Hn]. eexists. split; [done |].
    apply Forall_take. unfold published. apply Forall_forall.
    by intros x [? _]%list_elem_of_filter. }
  destruct (process_page h cfg acc (r :: releases) _) as [acc1 w1|e w1|];
    simpl in Hpage; [| |done].
  - destruct Hpage as (_ & _ & _ & Hlog). apply Hseen in Hlog.
    destruct (_ <? _)%nat; [done |].
    next_page_cases; done.
  - destruct Hpage as (_ & _ & _ & Hlog). by apply Hseen.
Qed.

Lemma fetch_loop_classified fuel server h cfg repo p acc w :
  outcome (fetch_loop fuel server h cfg repo p acc w) (fun w' =>
    exists seen,
      classified w' = classified w ++ seen /\ Forall (fun r => draft r = false) seen).
Proof.
  revert p acc w. induction fuel as [|fuel IH]; intros p acc w; simpl; [done |].
  run_m.
  pose proof (fetch_page_classified server h cfg repo p acc w) as Hpage.
  destruct (fetch_page server h cfg repo p acc w) as [step w1|e w1|];
    simpl in Hpage; [| |done]; [|done].
  destruct step as [acc1|acc1|exit1 acc1]; simpl; [|done..].
  specialize (IH (p + 1) acc1 w1). destruct Hpage as (seen1 & Hlog1 & Hall1).
  destruct (fetch_loop fuel server h cfg repo (p + 1) acc1 w1) as [[? ?] w2|e w2|];
    simpl in *; [| |done];
    destruct IH as (seen2 & Hlog2 & Hall2); exists (seen1 ++ seen2);
    (split; [by rewrite Hlog2, Hlog1, app_assoc | by apply Forall_app]).
Qed.

Lemma first_release_in cfg k pre seen x :
  first_release cfg k pre seen = Some x ->
  exists r, r ∈ seen /\ classify cfg r = k /\ x = make_release_info r.
Proof.
  unfold first_release.
  destruct (filter _ seen) as [|r rs] eqn:Hf; [done |]. simpl. intros [= <-].
  assert (r ∈ filter (fun r => classify cfg r = k /\ prerelease r = pre) seen)
    as [[? _] ?]%list_elem_of_filter by (rewrite Hf; by left).
  by exists r.
Qed.

(** X4: no draft gets into the accumulator. Whatever the mode, the
    releases [get_latest_releases] has classified are published ones, and
    every release a returned accumulator stores under a key was made from
    a classified, published release of that key. *)
Theorem X4_no_draft_is_stored
    (fuel : nat) (server : Server) (cfg : Config) (repo : string) (w : World)
    (result : Accumulator) (w' : World) :
  get_latest_releases fuel server cfg repo w = Done result w' ->
  exists seen,
    classified w' = classified w ++ seen /\
    Forall (fun r => draft r = false) seen /\
    forall k v x,
      Dict.get result k = Some v -> x ∈ stored v ->
      exists r,
        r ∈ seen /\ draft r = false /\
        classify (get_monorepo_artifacts cfg repo) r = k /\ x = make_release_info r.
Proof.
  intros Hrun.
  assert (exists seen, classified w' = classified w ++ seen /\
                       Forall (fun r => draft r = false) seen)
    as (seen & Hlog & Hall).
  { revert Hrun. rewrite get_latest_releases_unfold.
    pose proof (fetch_loop_classified fuel server (fetch_history cfg)
                  (get_monorepo_artifacts cfg repo) repo 1
                  (init_accumulator (fetch_history cfg) (get_monorepo_artifacts cfg repo) [])
                  w) as Hloop.
    destruct (fetch_loop _ _ _ _ _ _ _ _) as [[exit res] w1|e w1|];
      simpl in Hloop; [by intros [= _ <-] | |done].
    destruct (is_request_exception e); [by intros [= _ <-] | done]. }
  exists seen. split; [done |]. split; [done |].
  intros k v x Hget Hx.
  assert (Hgoal : (exists r, r ∈ seen /\ classify (get_monorepo_artifacts cfg repo) r = k /\
                             x = make_release_info r) ->
                  exists r, r ∈ seen /\ draft r = false /\
                            classify (get_monorepo_artifacts cfg repo) r = k /\
                            x = make_release_info r).
  { intros (r & Hr & ? & ?). exists r. split; [done |]. split; [|done].
    by apply (proj1 (Forall_forall _ _) Hall). }
  apply Hgoal.
  apply get_latest_releases_cases in Hrun as [-> | (exit & Hexit & Hrun)].
  { unfold neutral_result in Hget. simpl in Hget. destruct k; [|done].
    injection Hget as <-. by apply elem_of_nil in Hx. }
  destruct (fetch_history cfg) eqn:Hmode.
  - destruct (history_run _ _ _ _ _ _ _ _ Hmode Hrun Hexit)
      as (seen' & Hlog' & Hshape & Hhist).
    assert (seen' = seen) as -> by (apply (app_inv_head (classified w)); congruence).
    destruct (well_shaped_get true _ _ _ Hshape Hget) as [l ->]. simpl in Hx.
    pose proof (Hhist k) as Hk. unfold hist_of in Hk. rewrite Hget in Hk. subst l.
    apply list_elem_of_fmap in Hx as (r & -> & [? ?]%list_elem_of_filter).
    by exists r.
  - destruct (first_seen_wins_run _ _ _ _ _ _ _ _ Hmode Hrun Hexit)
      as (seen' & Hlog' & Hslots).
    assert (seen' = seen) as -> by (apply (app_inv_head (classified w)); congruence).
    pose proof (Hslots k) as Hk. unfold slot_of in Hk. rewrite Hget in Hk.
    simpl in Hk. subst v. simpl in Hx.
    apply elem_of_app in Hx as [Hx | Hx];
      [destruct (first_release _ k false seen) as [y|] eqn:Hfirst
      |destruct (first_release _ k true seen) as [y|] eqn:Hfirst];
      simpl in Hx; try (by apply elem_of_nil in Hx);
      apply list_elem_of_singleton in Hx as ->;
      by apply first_release_in in Hfirst.
Qed.

Lemma X4_no_draft_is_stored_witness :
  exists seen,
    classified (mkWorld ∅ [("test/repo", 1)] (published MOCK_RELEASES) []) =
      classified empty_world ++ seen /\
    Forall (fun r => draft r = false) seen /\
    forall k v x,
      Dict.get
        [("", Latest (Some (mkReleaseInfo "v1.0.0" "Regular release notes" false))
                     (Some (mkReleaseInfo "v2.0.0-rc1" "Pre-release notes" true)));
         ("op-node",
          Latest (Some (mkReleaseInfo "op-node/v1.10.2" "Monorepo release notes" false))
                 None)] k = Some v ->
      x ∈ stored v ->
      exists r,
        r ∈ seen /\ draft r = false /\
        classify (get_monorepo_artifacts (mock_config false) "test/repo") r = k /\
        x = make_release_info r.
Proof.
  apply (X4_no_draft_is_stored 1 mock_session (mock_config false) "test/repo" empty_world).
  vm_compute. reflexivity.
Defined.

(** * Further properties of the drivers *)

(** ** Exceptions that end the batch *)

Lemma process_all_raises fuel server cfg repo rest w e w' :
  process_repository fuel server cfg repo w = Raised e w' ->
  process_all fuel server cfg (repo :: rest) w = Raised e w'.
Proof. intros H. simpl. run_m. by rewrite H. Qed.

Lemma process_repository_fetch_raises fuel server cfg id owner repo_name w e w' :
  Str.split "/" (Str.strip id) = [owner; repo_name] ->
  get_latest_releases fuel server cfg (owner +:+ "/" +:+ repo_name) w = Raised e w' ->
  process_repository fuel server cfg id w = Raised e w'.
Proof. intros Hid H. unfold process_repository. rewrite Hid. run_m. by rewrite H. Qed.

Lemma get_init_None h cfg k :
  Dict.get (init_accumulator h cfg []) k = None <-> k ∉ cfg.
Proof.
  rewrite eq_None_not_Some, get_Some_keys, keys_init.
  split; [tauto |]. intros Hk [? | ?%elem_of_nil]; done.
Qed.

(** A release of the default key raises [KeyError] in history mode when
    the accumulator has no slot for the empty key. *)
Lemma process_release_key_error cfg acc r w :
  match_configured cfg r = "" ->
  Str.contains "/" (tag_name r) = false ->
  Dict.get acc "" = None ->
  process_release true cfg acc r w =
    Raised (KeyError "")
      (mkWorld (fs w) (requested w) (classified w ++ [r]) (summaries w)).
Proof.
  intros Hm Hsep Hget. unfold process_release, classify_release.
  rewrite Hm, Hsep. simpl. run_m. unfold store_release. by rewrite Hget.
Qed.

(** X7: in history mode, when the empty key is not in the allow-list and
    the first release of the first page is published, matches no configured
    key and has no separator in its tag, line 375 raises [KeyError] for the
    empty key; [get_latest_releases] does not catch it, and a batch that
    starts with this repository ends there. *)
Theorem X7_history_default_key_raises_key_error
    (fuel : nat) (server : Server) (cfg : Config) (repo : string) (w : World)
    (status_code : Z) (headers : Headers) (r : Release) (rest : list Release) :
  fetch_history cfg = true ->
  "" ∉ get_monorepo_artifacts cfg repo ->
  server repo 1 = HttpResponse status_code headers (r :: rest) ->
  ~ (400 <= status_code < 600)%Z ->
  draft r = false ->
  (forall a, a ∈ get_monorepo_artifacts cfg repo -> ~ appears a r) ->
  ~ substring "/" (tag_name r) ->
  1 <= fuel ->
  get_latest_releases fuel server cfg repo w =
    Raised (KeyError "")
      (mkWorld (fs w) (requested w ++ [(repo, 1)]) (classified w ++ [r]) (summaries w)) /\
  forall id owner repo_name others,
    Str.split "/" (Str.strip id) = [owner; repo_name] ->
    repo = owner +:+ "/" +:+ repo_name ->
    process_all fuel server cfg (id :: others) w =
      Raised (KeyError "")
        (mkWorld (fs w) (requested w ++ [(repo, 1)]) (classified w ++ [r]) (summaries w)).
Proof.
  intros Hmode Hcfg Hs Hst Hdraft Hno Hsep Hfuel.
  assert (Hrun : get_latest_releases fuel server cfg repo w =
            Raised (KeyError "")
              (mkWorld (fs w) (requested w ++ [(repo, 1)]) (classified w ++ [r])
                 (summaries w))).
  { rewrite get_latest_releases_unfold, Hmode.
    destruct fuel as [|fuel]; [lia |]. simpl. unfold fetch_page. run_m. simpl.
    rewrite Hs.
    assert (Herr : is_error_status status_code = false).
    { unfold is_error_status.
      destruct (Z.leb_spec 400 status_code), (Z.ltb_spec status_code 600); try done. lia. }
    assert (Hhit : rate_limit_hit status_code headers = false).
    { apply not_true_iff_false. intros [-> _]%rate_limit_hit_spec. apply Hst. lia. }
    rewrite Hhit, Herr. simpl. rewrite Hdraft. run_m.
    rewrite process_release_key_error; [done | | |].
    - apply match_configured_none. intros a Ha. right. by apply Hno.
    - by apply contains_false.
    - by apply get_init_None. }
  split; [done |].
  intros id owner repo_name others Hid ->.
  by apply process_all_raises, (process_repository_fetch_raises _ _ _ _ owner repo_name).
Qed.

Lemma X7_history_default_key_raises_key_error_witness :
  get_latest_releases 1 c2_server
    (mkConfig "artifacts" true (fun _ => ["op-node"]) None None None) "o/r" empty_world =
    Raised (KeyError "")
      (mkWorld (fs empty_world) (requested empty_world ++ [("o/r", 1)])
         (classified empty_world ++ [c2_release]) (summaries empty_world)) /\
  forall id owner repo_name others,
    Str.split "/" (Str.strip id) = [owner; repo_name] ->
    "o/r" = owner +:+ "/" +:+ repo_name ->
    process_all 1 c2_server
      (mkConfig "artifacts" true (fun _ => ["op-node"]) None None None)
      (id :: others) empty_world =
      Raised (KeyError "")
        (mkWorld (fs empty_world) (requested empty_world ++ [("o/r", 1)])
           (classified empty_world ++ [c2_release]) (summaries empty_world)).
Proof.
  apply (X7_history_default_key_raises_key_error 1 c2_server
           (mkConfig "artifacts" true (fun _ => ["op-node"]) None None None) "o/r"
           empty_world 200%Z no_headers c2_release []).
  - reflexivity.
  - simpl. by intros [=]%list_elem_of_singleton.
  - reflexivity.
  - lia.
  - reflexivity.
  - simpl. intros a ->%list_elem_of_singleton.
    intros [H | [H | H]]; apply contains_spec in H; discriminate H.
  - intros H. apply contains_spec in H. discriminate H.
  - lia.
Defined.

(** The writer on [None]: it raises [AttributeError], after it may have
    made the directories. *)
Lemma save_release_notes_None cfg owner repo artifact w :
  exists w',
    save_release_notes cfg owner repo artifact None w = Raised AttributeError w' /\
    requested w' = requested w /\ classified w' = classified w /\
    summaries w' = summaries w /\
    (w' = w \/
     exists fs1,
       FS.mkdir (fs w) (base_path (artifacts_root cfg) owner repo artifact) = Some fs1 /\
       w' = with_fs w fs1).
Proof.
  unfold save_release_notes, save_body, os_call, tag_of. run_m. simpl.
  destruct (FS.mkdir _ _) as [fs1|]; simpl.
  - eexists. split; [done |]. do 3 (split; [done |]). right. by exists fs1.
  - exists w. split; [done |]. do 3 (split; [done |]). by left.
Qed.

(** X8: the writer cannot be given [None]: it raises [AttributeError]
    from its own handler. So in history mode a repository for which the
    fetch returns the neutral result [{'': (None, None)}] ends the batch:
    no summary is written for it and the repositories after it are never
    asked for. *)
Theorem X8_history_neutral_result_ends_batch
    (fuel : nat) (server : Server) (cfg : Config) (id owner repo_name : string)
    (others : list string) (w w1 : World) :
  fetch_history cfg = true ->
  Str.split "/" (Str.strip id) = [owner; repo_name] ->
  get_latest_releases fuel server cfg (owner +:+ "/" +:+ repo_name) w =
    Done [("", Latest None None)] w1 ->
  (forall o r a w0, exists w0',
     save_release_notes cfg o r a None w0 = Raised AttributeError w0') /\
  exists w2,
    process_all fuel server cfg (id :: others) w = Raised AttributeError w2 /\
    requested w2 = requested w1 /\ summaries w2 = summaries w1.
Proof.
  intros Hmode Hid Hrun. split.
  { intros o r a w0. destruct (save_release_notes_None cfg o r a w0) as (w0' & ? & _).
    by exists w0'. }
  destruct (save_release_notes_None cfg owner repo_name "" w1)
    as (w2 & Hsave & Hreq & _ & Hsum & _).
  exists w2. split; [|done].
  apply process_all_raises. unfold process_repository. rewrite Hid. run_m.
  rewrite Hrun. simpl. rewrite Hmode. simpl. unfold save_and_count. run_m.
  by rewrite Hsave.
Qed.

Lemma X8_history_neutral_result_ends_batch_witness :
  (forall o r a w0, exists w0',
     save_release_notes c10_config o r a None w0 = Raised AttributeError w0') /\
  exists w2,
    process_all 1 c10_empty_server c10_config ["o/r"; "c/d"] empty_world =
      Raised AttributeError w2 /\
    requested w2 = requested (after_request empty_world "o/r" 1) /\
    summaries w2 = summaries (after_request empty_world "o/r" 1).
Proof.
  apply (X8_history_neutral_result_ends_batch 1 c10_empty_server c10_config
           "o/r" "o" "r" ["c/d"] empty_world (after_request empty_world "o/r" 1)).
  - reflexivity.
  - reflexivity.
  - vm_compute. reflexivity.
Defined.

(** ** The batch only adds to the tree *)

Lemma grows_refl w : grows w w.
Proof. by repeat split. Qed.

Lemma grows_trans w1 w2 w3 : grows w1 w2 -> grows w2 w3 -> grows w1 w3.
Proof.
  intros (? & ? & ? & ?) (? & ? & ? & ?).
  split; [by etrans |]. repeat split; congruence.
Qed.

Lemma mkdir_subseteq fs0 p fs1 : FS.mkdir fs0 p = Some fs1 -> fs0 ⊆ fs1.
Proof.
  unfold FS.mkdir. intros (Hkeep & _)%mkdir_fold_extends.
  by apply map_subseteq_spec.
Qed.

Lemma write_text_subseteq fs1 p c fs2 :
  FS.exists_ fs1 p = false -> FS.write_text fs1 p c = Some fs2 -> fs1 ⊆ fs2.
Proof.
  unfold FS.exists_, FS.write_text. intros Hex.
  destruct (_ && _); [|done]. intros [= <-]. apply insert_subseteq.
  destruct (p.2); [done |]. apply bool_decide_eq_false in Hex.
  by apply eq_None_not_Some.
Qed.

Lemma save_release_notes_grows cfg owner repo artifact release w :
  outcome (save_release_notes cfg owner repo artifact release w) (grows w).
Proof.
  destruct release as [release|].
  - rewrite save_release_notes_Some. simpl.
    destruct (FS.mkdir _ _) as [fs1|] eqn:Hmk; [|apply grows_refl].
    apply mkdir_subseteq in Hmk.
    destruct (FS.exists_ fs1 _) eqn:Hex; [by repeat split |].
    destruct (FS.write_text _ _ _) as [fs2|] eqn:Hwr; [|by repeat split].
    apply write_text_subseteq in Hwr; [|done].
    split; [simpl; by etrans | done].
  - destruct (save_release_notes_None cfg owner repo artifact w)
      as (w' & -> & ? & ? & ? & [-> | (fs1 & Hmk & ->)]); simpl.
    + apply grows_refl.
    + apply mkdir_subseteq in Hmk. by repeat split.
Qed.

Lemma save_and_count_grows cfg owner repo artifact release counts w :
  outcome (save_and_count cfg owner repo artifact release counts w) (grows w).
Proof.
  unfold save_and_count. run_m.
  pose proof (save_release_notes_grows cfg owner repo artifact release w) as H.
  destruct (save_release_notes _ _ _ _ _ _) as [[|] w1|e w1|]; done.
Qed.

Lemma save_all_grows cfg owner repo artifact releases counts w :
  outcome (save_all cfg owner repo artifact releases counts w) (grows w).
Proof.
  revert counts w. induction releases as [|r releases IH]; intros counts w; simpl.
  - apply grows_refl.
  - run_m. pose proof (save_and_count_grows cfg owner repo artifact r counts w) as H.
    destruct (save_and_count _ _ _ _ _ _ _) as [counts1 w1|e w1|]; [|done..].
    specialize (IH counts1 w1).
    destruct (save_all _ _ _ _ _ _ _) as [? w2|? w2|]; simpl in *; [| |done];
      by eapply grows_trans.
Qed.

Lemma save_latest_grows cfg owner repo artifact v w :
  outcome (save_latest cfg owner repo artifact v w) (grows w).
Proof.
  unfold save_latest. run_m.
  pose proof (unpack_world v w) as Hv.
  destruct (unpack v w) as [[stable pre] w0|e w0|]; simpl in Hv; [| |done];
    subst w0; [|apply grows_refl].
  destruct stable as [s|]; simpl.
  - pose proof (save_and_count_grows cfg owner repo artifact (Some s) (0, 0) w) as H1.
    destruct (save_and_count _ _ _ _ (Some s) _ _) as [counts w1|e w1|]; [|done..].
    destruct pre as [p|]; simpl; [|done].
    pose proof (save_and_count_grows cfg owner repo artifact (Some p) counts w1) as H2.
    destruct (save_and_count _ _ _ _ (Some p) _ _) as [? w2|? w2|]; simpl in *;
      [| |done]; by eapply grows_trans.
  - destruct pre as [p|]; simpl; [|apply grows_refl].
    apply save_and_count_grows.
Qed.

Lemma save_artifacts_grows cfg owner repo items summary w :
  outcome (save_artifacts cfg owner repo items summary w) (grows w).
Proof.
  revert summary w. induction items as [|[artifact v] items IH]; intros summary w; simpl.
  - apply grows_refl.
  - run_m. destruct (fetch_history cfg) eqn:Hmode.
    + pose proof (save_all_grows cfg owner repo artifact (elements_of v) (0, 0) w) as H1.
      destruct (save_all cfg owner repo artifact (elements_of v) (0, 0) w)
        as [counts w1|e w1|]; [|done..].
      specialize (IH (Dict.set summary artifact counts) w1).
      destruct (save_artifacts _ _ _ _ _ _) as [? w2|? w2|]; simpl in *; [| |done];
        by eapply grows_trans.
    + pose proof (save_latest_grows cfg owner repo artifact v w) as H1.
      destruct (save_latest cfg owner repo artifact v w) as [counts w1|e w1|]; [|done..].
      specialize (IH (Dict.set summary artifact counts) w1).
      destruct (save_artifacts _ _ _ _ _ _) as [? w2|? w2|]; simpl in *; [| |done];
        by eapply grows_trans.
Qed.

Lemma print_summary_world cfg acc summary w :
  outcome (print_summary cfg acc summary w) (fun w' => w' = w).
Proof.
  induction summary as [|[artifact counts] summary IH]; simpl; [done |]. run_m.
  destruct (Dict.get acc artifact) as [v|]; [|done].
  assert (H : outcome (print_latest cfg v w) (fun w' => w' = w)).
  { unfold print_latest. destruct (fetch_history cfg).
    - destruct v as [[|? ?]|[?|] ?]; done.
    - run_m. pose proof (unpack_world v w) as Hv.
      destruct (unpack v w) as [? w0|? w0|]; done. }
  destruct (print_latest cfg v w) as [[] w0|e w0|]; simpl in H; [|done..].
  by subst w0.
Qed.

Lemma process_repository_fs fuel server cfg repo w :
  outcome (process_repository fuel server cfg repo w) (fun w' => fs w ⊆ fs w').
Proof.
  unfold process_repository.
  destruct (Str.split "/" (Str.strip repo)) as [|owner [|repo_name [|? ?]]];
    [simpl; reflexivity | simpl; reflexivity | | simpl; reflexivity].
  run_m.
  pose proof (get_latest_releases_frame fuel server cfg (owner +:+ "/" +:+ repo_name) w)
    as Hfetch.
  destruct (get_latest_releases _ _ _ _ _) as [acc w1|e w1|]; simpl in Hfetch;
    [| |done]; destruct Hfetch as (Hfs & _); [|simpl; by rewrite Hfs].
  pose proof (save_artifacts_grows cfg owner repo_name acc [] w1) as Hsave.
  destruct (save_artifacts _ _ _ _ _ _) as [summary w2|e w2|]; simpl in Hsave;
    [| |done]; destruct Hsave as (Hfs2 & _); [|simpl; by rewrite <- Hfs].
  simpl.
  pose proof (print_summary_world cfg acc summary
                (mkWorld (fs w2) (requested w2) (classified w2)
                   (summaries w2 ++ [(repo, summary)]))) as Hprint.
  destruct (print_summary _ _ _ _) as [[] w3|e w3|]; simpl in Hprint; [| |done];
    subst w3; simpl; by rewrite <- Hfs.
Qed.

Lemma process_all_fs fuel server cfg repositories w :
  outcome (process_all fuel server cfg repositories w) (fun w' => fs w ⊆ fs w').
Proof.
  revert w. induction repositories as [|repo rest IH]; intros w; simpl; [done |].
  run_m. pose proof (process_repository_fs fuel server cfg repo w) as H.
  destruct (process_repository _ _ _ _ _) as [[] w1|e w1|]; [|done..].
  specialize (IH w1).
  destruct (process_all _ _ _ _ _) as [? w2|? w2|]; simpl in *; [| |done]; by etrans.
Qed.

(** X9: a run of the batch, however it ends, only adds to the tree: every
    file and directory that was there before [main] is there afterwards,
    files with the content they had. *)
Theorem X9_batch_keeps_every_entry
    (fuel : nat) (server : Server) (cfg : Config) (w : World) :
  outcome (main fuel server cfg w) (fun w' =>
    forall p n, fs w !! p = Some n -> fs w' !! p = Some n).
Proof.
  assert (H : outcome (main fuel server cfg w) (fun w' => fs w ⊆ fs w')).
  { unfold main. run_m.
    assert (Hrepos : (exists l, get_repositories cfg w = Done l w) \/
                     get_repositories cfg w = Raised (SystemExit 1) w).
    { unfold get_repositories. run_m.
      destruct (env_repos cfg) as [[|? ?]|]; eauto;
        destruct (arg_repos cfg) as [[|? ?]|]; eauto;
        destruct (file_repos cfg); eauto. }
    destruct Hrepos as [[l ->] | ->]; [apply process_all_fs | simpl; reflexivity]. }
  destruct (main fuel server cfg w) as [? w'|? w'|]; simpl in *; [| |done];
    intros p n; by apply (proj1 (map_subseteq_spec _ _) H).
Qed.

(** ** Latest-only mode: what can end the batch *)












(** ** Repository identifiers *)

Lemma split_length sep s : length (Str.split sep s) = S (occurrences sep s).
Proof.
  induction s as [|c s IH]; simpl; [done |].
  destruct (Ascii.eqb c sep); simpl; [by rewrite IH |].
  destruct (Str.split sep s); simpl in *; [done | by rewrite IH].
Qed.

Lemma split_one sep s a : Str.split sep s = [a] -> s = a.
Proof.
  revert a. induction s as [|c s IH]; intros a; simpl; [by intros [= <-] |].
  destruct (Ascii.eqb c sep).
  - intros [= <- Hs]. pose proof (split_length sep s) as Hlen. by rewrite Hs in Hlen.
  - destruct (Str.split sep s) as [|w ws] eqn:Hs.
    + pose proof (split_length sep s) as Hlen. by rewrite Hs in Hlen.
    + intros [= <- ->]. by rewrite (IH w).
Qed.

Lemma split_two sep s a b : Str.split sep s = [a; b] -> s = a +:+ String sep b.
Proof.
  revert a. induction s as [|c s IH]; intros a; simpl; [done |].
  destruct (Ascii.eqb c sep) eqn:Hc.
  - apply Ascii.eqb_eq in Hc as ->. intros [= <- Hs]. simpl.
    by rewrite (split_one _ _ _ Hs).
  - destruct (Str.split sep s) as [|w ws] eqn:Hs; [done |].
    intros [= <- ->]. simpl. by rewrite (IH w).
Qed.

(** X13: a repository identifier that, stripped of surrounding white
    space, does not have exactly one "/" is skipped: nothing is requested,
    nothing is written, and the batch goes on with the next repository.
    With exactly one "/" the identifier is split there, and the fetch is
    for the stripped identifier. *)
Theorem X13_malformed_repository_is_skipped
    (fuel : nat) (server : Server) (cfg : Config) (id : string) (rest : list string)
    (w : World) :
  (occurrences "/" (Str.strip id) <> 1 /\
   process_repository fuel server cfg id w = Done tt w /\
   process_all fuel server cfg (id :: rest) w = process_all fuel server cfg rest w) \/
  (occurrences "/" (Str.strip id) = 1 /\
   exists owner repo_name,
     Str.split "/" (Str.strip id) = [owner; repo_name] /\
     Str.strip id = owner +:+ "/" +:+ repo_name).
Proof.
  pose proof (split_length "/" (Str.strip id)) as Hlen.
  destruct (decide (occurrences "/" (Str.strip id) = 1)) as [Hone | Hne].
  - right. split; [done |]. rewrite Hone in Hlen.
    destruct (Str.split "/" (Str.strip id)) as [|owner [|repo_name [|? ?]]] eqn:Hs;
      try done.
    exists owner, repo_name. split; [done |]. by apply split_two.
  - left. split; [done |].
    assert (Hrun : process_repository fuel server cfg id w = Done tt w).
    { unfold process_repository.
      destruct (Str.split "/" (Str.strip id)) as [|owner [|repo_name [|? ?]]];
        try done. simpl in Hlen. lia. }
    split; [done |]. simpl. run_m. by rewrite Hrun.
Qed.

(** ** Tags that still hold a separator *)

Lemma mkdir_fold_other (ds : list Path) (fs0 fs1 : gmap Path Node) (d : Path) :
  foldl FS.mkdir_step (Some fs0) ds = Some fs1 -> d ∉ ds -> fs1 !! d = fs0 !! d.
Proof.
  revert fs0. induction ds as [|d' ds IH]; intros fs0; simpl; [by intros [= ->] |].
  intros Hrun Hd. apply not_elem_of_cons in Hd as [Hne Hd].
  destruct (fs0 !! d') as [[|c]|] eqn:Hd'.
  - by apply IH.
  - by rewrite mkdir_fold_None in Hrun.
  - rewrite (IH _ Hrun Hd). by rewrite lookup_insert_ne.
Qed.

(** X11: the writer makes the directory of the artifact and nothing below
    it. When the file name it builds from the tag lies in a directory that
    is neither there nor made by the writer (the tag still holds a "/"
    after its prefix is stripped), the writer returns [False] and writes no
    file. *)
Theorem X11_nested_tag_is_not_written
    (cfg : Config) (owner repo artifact : string) (release : ReleaseInfo) (w : World) :
  FS.is_dir (fs w)
    (Pathlib.parent (file_path (artifacts_root cfg) owner repo artifact (tag release)))
    = false ->
  Pathlib.parent (file_path (artifacts_root cfg) owner repo artifact (tag release))
    ∉ FS.prefixes (base_path (artifacts_root cfg) owner repo artifact) ->
  exists w',
    save_release_notes cfg owner repo artifact (Some release) w = Done false w' /\
    forall p c, fs w' !! p = Some (File c) -> fs w !! p = Some (File c).
Proof.
  intros Hdir Hnot. rewrite save_release_notes_Some. simpl.
  destruct (FS.mkdir _ _) as [fs1|] eqn:Hmk; [|by exists w].
  unfold FS.mkdir in Hmk.
  pose proof (mkdir_fold_other _ _ _ _ Hmk Hnot) as Hsame.
  apply mkdir_fold_extends in Hmk as (_ & Hnew & _).
  assert (Hfiles : forall p c, fs1 !! p = Some (File c) -> fs w !! p = Some (File c)).
  { intros p c Hp. by destruct (Hnew _ _ Hp). }
  destruct (FS.exists_ fs1 _); [by exists (with_fs w fs1) |].
  unfold FS.write_text.
  replace (FS.is_dir fs1 (Pathlib.parent _)) with false; [by exists (with_fs w fs1) |].
  rewrite <- Hdir. unfold FS.is_dir.
  destruct (Pathlib.parent _).2; [done |]. by rewrite Hsame.
Qed.

Lemma X11_nested_tag_is_not_written_witness :
  exists w',
    save_release_notes c8_config "o" "r" "op-node"
      (Some (mkReleaseInfo "foo/v1" no_notes false)) empty_world = Done false w' /\
    forall p c, fs w' !! p = Some (File c) -> fs empty_world !! p = Some (File c).
Proof.
  apply (X11_nested_tag_is_not_written c8_config "o" "r" "op-node"
           (mkReleaseInfo "foo/v1" no_notes false) empty_world).
  - vm_compute. reflexivity.
  - refine (bool_decide_unpack _ _). vm_compute. exact I.
Defined.

(** ** The summary of a repository *)

Lemma NoDup_keys_set {V : Type} (d : list (string * V)) k v :
  NoDup (Dict.keys d) -> NoDup (Dict.keys (Dict.set d k v)).
Proof.
  intros Hd. rewrite keys_set. unfold Dict.mem.
  destruct (Dict.get d k) eqn:Hget; [done |].
  apply NoDup_app. split; [done |]. split; [|apply NoDup_singleton].
  intros x Hx ->%list_elem_of_singleton.
  apply get_Some_keys in Hx as [? ?]. congruence.
Qed.

Lemma NoDup_keys_init h cfg acc :
  NoDup (Dict.keys acc) -> NoDup (Dict.keys (init_accumulator h cfg acc)).
Proof.
  revert acc. induction cfg as [|a cfg IH]; intros acc Hacc; simpl; [done |].
  by apply IH, NoDup_keys_set.
Qed.

Lemma process_release_nodup h cfg acc r w acc' stop w' :
  NoDup (Dict.keys acc) ->
  process_release h cfg acc r w = Done (acc', stop) w' ->
  NoDup (Dict.keys acc').
Proof.
  intros Hacc. unfold process_release.
  assert (exists acc1, classify_release h cfg acc r = (classify cfg r, acc1) /\
            NoDup (Dict.keys acc1)) as (acc1 & -> & Hacc1).
  { destruct (classify_release_cases h cfg acc r) as [-> | (_ & _ & ->)];
      eexists; (split; [done |]); [done | by apply NoDup_keys_set]. }
  run_m. cbn -[store_release all_found].
  destruct (store_release h acc1 (classify cfg r) r _) as [acc2 w2| |] eqn:Hstore;
    [|done..].
  assert (NoDup (Dict.keys acc2)) as Hacc2.
  { revert Hstore. unfold store_release. run_m. destruct h.
    - destruct (Dict.get acc1 _) as [[l|? ?]|]; try done.
      intros [= <- _]. by apply NoDup_keys_set.
    - destruct (default _ _) as [[|a [|b [|? ?]]]|s p]; simpl; try done;
        destruct (prerelease r); simpl; repeat case_bool_decide; simpl;
        intros [= <- _]; try done; by apply NoDup_keys_set. }
  destruct h; simpl.
  - by intros [= <- _ _].
  - destruct (all_found _ _) as [b w3| |]; [|done..]. by intros [= <- _ _].
Qed.

Lemma get_latest_releases_nodup fuel server cfg repo w result w' :
  get_latest_releases fuel server cfg repo w = Done result w' ->
  NoDup (Dict.keys result).
Proof.
  intros [-> | (exit & Hexit & Hrun)]%get_latest_releases_cases.
  - apply NoDup_singleton.
  - unfold fetch_releases in Hrun.
    apply (fetch_loop_invariant (fetch_history cfg) (get_monorepo_artifacts cfg repo)
             (fun acc _ => NoDup (Dict.keys acc))) in Hrun; [done | | | done].
    + intros acc r w1 acc' stop w1' Hacc _. by apply process_release_nodup.
    + apply NoDup_keys_init. constructor.
Qed.

Lemma save_and_count_sum cfg owner repo artifact release counts w counts' w' :
  save_and_count cfg owner repo artifact release counts w = Done counts' w' ->
  is_Some release /\ counts'.1 + counts'.2 = counts.1 + counts.2 + 1.
Proof.
  unfold save_and_count. run_m. destruct release as [release|].
  - destruct (save_release_notes _ _ _ _ _ _) as [[|] w1| |]; try done;
      intros [= <- _]; simpl; (split; [by eexists | lia]).
  - destruct (save_release_notes_None cfg owner repo artifact w) as (w1 & -> & _). done.
Qed.

Lemma save_all_sum cfg owner repo artifact releases counts w counts' w' :
  save_all cfg owner repo artifact releases counts w = Done counts' w' ->
  counts'.1 + counts'.2 = counts.1 + counts.2 + length releases.
Proof.
  revert counts w. induction releases as [|r releases IH]; intros counts w; simpl.
  - run_m. intros [= <- _]. lia.
  - run_m. destruct (save_and_count _ _ _ _ _ _ _) as [counts1 w1| |] eqn:H1; [|done..].
    apply save_and_count_sum in H1 as [_ H1]. intros H2%IH. lia.
Qed.

(** The counters of one artifact add up to the releases its value stores. *)
Lemma save_artifact_sum cfg owner repo artifact v w counts w' :
  (if fetch_history cfg
   then save_all cfg owner repo artifact (elements_of v) (0, 0)
   else save_latest cfg owner repo artifact v) w = Done counts w' ->
  counts.1 + counts.2 = length (stored v).
Proof.
  destruct (fetch_history cfg).
  - destruct v as [l|stable pre]; simpl.
    + intros H%save_all_sum. rewrite length_fmap in H. simpl in H. lia.
    + run_m.
      destruct (save_and_count _ _ _ _ stable _ _) as [c1 w1| |] eqn:H1; [|done..].
      destruct (save_and_count _ _ _ _ pre _ _) as [c2 w2| |] eqn:H2; [|done..].
      apply save_and_count_sum in H1 as [[s ->] H1].
      apply save_and_count_sum in H2 as [[p ->] H2].
      intros [= <- _]. simpl in *. lia.
  - unfold save_latest. run_m.
    destruct v as [[|a [|b [|? ?]]]|stable pre]; simpl; try done.
    + destruct (save_and_count _ _ _ _ (Some a) _ _) as [c1 w1| |] eqn:H1; [|done..].
      apply save_and_count_sum in H1 as [_ H1]. intros [_ H2]%save_and_count_sum.
      simpl in *. lia.
    + destruct stable as [s|], pre as [p|]; simpl.
      * destruct (save_and_count _ _ _ _ (Some s) _ _) as [c1 w1| |] eqn:H1; [|done..].
        apply save_and_count_sum in H1 as [_ H1]. intros [_ H2]%save_and_count_sum.
        simpl in *. lia.
      * destruct (save_and_count _ _ _ _ (Some s) _ _) as [c1 w1| |] eqn:H1; [|done..].
        apply save_and_count_sum in H1 as [_ H1]. intros [= <- _]. simpl in *. lia.
      * intros [_ H2]%save_and_count_sum. simpl in *. lia.
      * by intros [= <- _].
Qed.

Lemma save_artifacts_sum cfg owner repo items summary w summary' w' :
  NoDup (Dict.keys items) ->
  save_artifacts cfg owner repo items summary w = Done summary' w' ->
  (forall k v, Dict.get items k = Some v ->
     exists written skipped,
       Dict.get summary' k = Some (written, skipped) /\
       written + skipped = length (stored v)) /\
  (forall k, Dict.get items k = None -> Dict.get summary' k = Dict.get summary k).
Proof.
  revert summary w. induction items as [|[artifact v] items IH]; intros summary w Hnd;
    simpl.
  - run_m. intros [= <- _]. split; [done | done].
  - run_m. change (Dict.keys ((artifact, v) :: items)) with (artifact :: Dict.keys items)
      in Hnd.
    apply NoDup_cons in Hnd as [Hnotin Hnd].
    destruct ((if fetch_history cfg
               then save_all cfg owner repo artifact (elements_of v) (0, 0)
               else save_latest cfg owner repo artifact v) w) as [counts w1| |] eqn:H1;
      [|done..].
    apply save_artifact_sum in H1.
    intros Hrest. apply IH in Hrest as [Hin Hout]; [|done].
    assert (Hnone : Dict.get items artifact = None).
    { apply eq_None_not_Some. by intros ?%get_Some_keys. }
    split.
    + intros k v'. destruct (String.eqb artifact k) eqn:Hk.
      * apply String.eqb_eq in Hk as <-. intros [= <-].
        exists counts.1, counts.2. split; [|done].
        rewrite (Hout _ Hnone), get_set_eq. by destruct counts.
      * by apply Hin.
    + intros k. destruct (String.eqb artifact k) eqn:Hk; [done |].
      apply String.eqb_neq in Hk. intros Hget.
      by rewrite (Hout _ Hget), get_set_ne.
Qed.

(** X12: when [process_repository] has gone through a repository, it has
    printed one summary for it, and for every key of the fetched
    accumulator the numbers of files written and unchanged add up to the
    number of releases stored under that key. *)
Theorem X12_summary_counts_add_up
    (fuel : nat) (server : Server) (cfg : Config) (id owner repo_name : string)
    (w w' : World) :
  Str.split "/" (Str.strip id) = [owner; repo_name] ->
  process_repository fuel server cfg id w = Done tt w' ->
  exists result w1 summary,
    get_latest_releases fuel server cfg (owner +:+ "/" +:+ repo_name) w = Done result w1 /\
    summaries w' = summaries w ++ [(id, summary)] /\
    forall k v,
      Dict.get result k = Some v ->
      exists written skipped,
        Dict.get summary k = Some (written, skipped) /\
        written + skipped = length (stored v).
Proof.
  intros Hid. unfold process_repository. rewrite Hid. run_m.
  pose proof (get_latest_releases_frame fuel server cfg (owner +:+ "/" +:+ repo_name) w)
    as Hframe.
  destruct (get_latest_releases _ _ _ _ _) as [result w1| |] eqn:Hfetch; [|done..].
  simpl in Hframe. destruct Hframe as (_ & Hsum1 & _).
  pose proof (save_artifacts_grows cfg owner repo_name result [] w1) as Hgrows.
  destruct (save_artifacts _ _ _ _ _ _) as [summary w2| |] eqn:Hsave; [|done..].
  simpl in Hgrows. destruct Hgrows as (_ & _ & _ & Hsum2).
  simpl.
  pose proof (print_summary_world cfg result summary
                (mkWorld (fs w2) (requested w2) (classified w2)
                   (summaries w2 ++ [(id, summary)]))) as Hprint.
  destruct (print_summary _ _ _ _) as [[] w3| |]; [|done..].
  simpl in Hprint. subst w3. intros [= <-].
  exists result, w1, summary. split; [done |].
  split; [simpl; by rewrite Hsum2, Hsum1 |].
  apply save_artifacts_sum in Hsave as [Hin _]; [done |].
  by apply get_latest_releases_nodup in Hfetch.
Qed.

Lemma X12_summary_counts_add_up_witness :
  exists result w1 summary,
    get_latest_releases 1 mock_session (mock_config false) ("test" +:+ "/" +:+ "repo")
      (mkWorld ∅ [] [] []) = Done result w1 /\
    summaries test_repo_world = summaries (mkWorld ∅ [] [] []) ++ [("test/repo", summary)] /\
    forall k v,
      Dict.get result k = Some v ->
      exists written skipped,
        Dict.get summary k = Some (written, skipped) /\
        written + skipped = length (stored v).
Proof.
  apply (X12_summary_counts_add_up 1 mock_session (mock_config false) "test/repo"
           "test" "repo" (mkWorld ∅ [] [] []) test_repo_world).
  - reflexivity.
  - exact (proj1 test_process_repository).
Defined.

(** ** A page that ends the fetch *)

(** X17: a page that is not empty ends the fetch when it has fewer than
    100 releases, or when its rate-limit-remaining header is below 1: the
    request for this page is the last one. *)
Theorem X17_short_page_ends_fetch
    (server : Server) (cfg : Config) (repo : string) (w0 : World)
    (p : nat) (acc : Accumulator) (w : World)
    (status_code : Z) (headers : Headers) (releases : list Release)
    (fuel : nat) :
  gets_to server cfg repo w0 p acc w ->
  server repo p = HttpResponse status_code headers releases ->
  ~ (400 <= status_code < 600)%Z ->
  releases <> [] ->
  length releases < 100 \/
    (exists remaining,
       x_ratelimit_remaining headers = Some remaining /\ (remaining < 1)%Z) ->
  p <= fuel ->
  outcome (get_latest_releases fuel server cfg repo w0) (fun w' =>
    requested w' = requested w ++ [(repo, p)]).
Proof.
  intros Harr Hs Hst Hne Hend Hfuel.
  rewrite (get_latest_releases_at _ _ _ _ _ _ _ _ Harr Hfuel).
  unfold fetch_page. run_m. simpl. rewrite Hs.
  assert (Herr : is_error_status status_code = false).
  { unfold is_error_status.
    destruct (Z.leb_spec 400 status_code), (Z.ltb_spec status_code 600); try done. lia. }
  assert (Hhit : rate_limit_hit status_code headers = false).
  { apply not_true_iff_false. intros [-> _]%rate_limit_hit_spec. apply Hst. lia. }
  rewrite Hhit, Herr. destruct releases as [|r releases]; [done |].
  pose proof (process_page_outcome (fetch_history cfg) (get_monorepo_artifacts cfg repo)
                (r :: releases) acc
                (mkWorld (fs w) (requested w ++ [(repo, p)]) (classified w) (summaries w)))
    as Hpage.
  destruct (process_page _ _ _ (r :: releases) _) as [acc1 w1|e w1|];
    simpl in Hpage; [| |done].
  - destruct Hpage as (_ & Hreq & _).
    destruct Hend as [Hshort | (remaining & Hrem & Hlow)].
    + unfold per_page. destruct (Nat.ltb_spec (length (r :: releases)) 100); [done | lia].
    + destruct (_ <? _)%nat; [done |].
      unfold next_page, int_header. run_m. rewrite Hrem.
      destruct (Z.ltb_spec remaining 1); [|lia].
      by destruct (x_ratelimit_reset headers).
  - destruct Hpage as (_ & Hreq & _). by destruct (is_request_exception e).
Qed.

Lemma X17_short_page_ends_fetch_witness :
  outcome (get_latest_releases 5 c1_server (default_config false "o/r") "o/r" empty_world)
    (fun w' =>
       requested w' =
         requested (mkWorld ∅ [("o/r", 1)]
                      [stable_release "v2.0.0"; pre_release "v2.1.0-rc1"] [])
         ++ [("o/r", 2)]).
Proof.
  apply (X17_short_page_ends_fetch c1_server (default_config false "o/r") "o/r"
           empty_world 2 c1_found
           (mkWorld ∅ [("o/r", 1)] [stable_release "v2.0.0"; pre_release "v2.1.0-rc1"] [])
           200%Z (mkHeaders (Some 4998%Z) (Some 1700000000%Z)) [stable_release "x/v1.0"] 5).
  - unfold gets_to.
    apply (arrives_next _ _ _ _ _ _ _ 1 (start (default_config false "o/r") "o/r")
             empty_world).
    + constructor.
    + vm_compute. reflexivity.
  - reflexivity.
  - lia.
  - done.
  - left. simpl. lia.
  - lia.
Defined.

(** * Properties of the configuration resolver *)

Lemma replace_app a b s t :
  Resolver.replace a b (s +:+ t) = Resolver.replace a b s +:+ Resolver.replace a b t.
Proof. induction s as [|c s IH]; simpl; [done | by rewrite IH]. Qed.

(** The attribute argparse makes for the option of a repository is the
    attribute [get_monorepo_artifacts] reads exactly when the repository
    has no "-" in its name. *)
Lemma dest_is_arg_name repo :
  Resolver.dest ("artifacts-" +:+ Resolver.replace "/" "-" repo) =
    "artifacts_" +:+ Resolver.replace "/" "_" repo <->
  occurrences "-" repo = 0.
Proof.
  unfold Resolver.dest. rewrite replace_app.
  change (Resolver.replace "-" "_" "artifacts-") with "artifacts_".
  split.
  - intros H%string_app_inv_head. induction repo as [|c repo IH]; [done |].
    simpl in *. injection H as Hc Hrest.
    destruct (Ascii.eqb c "/") eqn:Hslash.
    + apply Ascii.eqb_eq in Hslash as ->. simpl. by apply IH.
    + destruct (Ascii.eqb c "-") eqn:Hdash; [|by apply IH].
      apply Ascii.eqb_eq in Hdash as ->. done.
  - intros H. f_equal. induction repo as [|c repo IH]; [done |].
    simpl in *. destruct (Ascii.eqb c "-") eqn:Hdash; [done |].
    rewrite IH by done. f_equal.
    destruct (Ascii.eqb c "/") eqn:Hslash; [done |]. by rewrite Hdash.
Qed.

(** X15: for a repository whose name has a "-" in it, the allow-list
    given on the command line is never used: argparse stores it under a
    name in which every "-" is a "_", and [get_monorepo_artifacts] asks for
    a name that keeps the "-" of the repository. Without a "-" in the name
    and without a value in the environment, a value on the command line is
    the allow-list. *)
Theorem X15_command_line_allow_list
    (s : Sources) (repo : string) :
  (occurrences "-" repo <> 0 ->
   forall s',
     (forall n, environ s' n = environ s n) /\ (forall n, files s' n = files s n) ->
     Resolver.get_monorepo_artifacts s' repo = Resolver.get_monorepo_artifacts s repo) /\
  (forall c v,
     occurrences "-" repo = 0 /\
     (environ s ("MONOREPO_ARTIFACTS_" +:+ Resolver.upper (Resolver.replace "/" "_" repo))
        = None \/
      environ s ("MONOREPO_ARTIFACTS_" +:+ Resolver.upper (Resolver.replace "/" "_" repo))
        = Some "") /\
     cli_option s ("artifacts-" +:+ Resolver.replace "/" "-" repo) = Some (String c v) ->
     Resolver.get_monorepo_artifacts s repo = Str.split "," (String c v)).
Proof.
  split.
  - intros Hdash s' [Henv Hfiles].
    assert (Hattr : forall s0,
              Resolver.getattr s0 ("artifacts-" +:+ Resolver.replace "/" "-" repo)
                ("artifacts_" +:+ Resolver.replace "/" "_" repo) = None).
    { intros s0. unfold Resolver.getattr.
      destruct (String.eqb _ _) eqn:Heq; [|done].
      apply String.eqb_eq, dest_is_arg_name in Heq. done. }
    unfold Resolver.get_monorepo_artifacts. rewrite !Hattr, Henv.
    assert (Hff : forall names section key,
              Resolver.from_files s' names section key =
                Resolver.from_files s names section key).
    { intros names section key. induction names as [|n names IH]; simpl; [done |].
      by rewrite Hfiles, IH. }
    by rewrite Hff.
  - intros c v (Hdash & Henv & Hcli).
    unfold Resolver.get_monorepo_artifacts, Resolver.getattr.
    rewrite (proj2 (String.eqb_eq _ _) (proj2 (dest_is_arg_name repo) Hdash)), Hcli.
    by destruct Henv as [-> | ->].
Qed.

Lemma X15_command_line_allow_list_witness :
  Resolver.get_monorepo_artifacts
    (mkSources (fun _ => None)
       (fun n => if String.eqb n "artifacts-ethereum-optimism-optimism"
                 then Some "op-node,op-geth" else None)
       (fun _ => false) (fun _ => None))
    "ethereum-optimism/optimism" =
  Resolver.get_monorepo_artifacts
    (mkSources (fun _ => None) (fun _ => None) (fun _ => false) (fun _ => None))
    "ethereum-optimism/optimism" /\
  Resolver.get_monorepo_artifacts
    (mkSources (fun _ => None)
       (fun n => if String.eqb n "artifacts-owner-repo" then Some "op-node,op-geth" else None)
       (fun _ => false) (fun _ => None))
    "owner/repo" = Str.split "," "op-node,op-geth".
Proof.
  split.
  - apply (proj1 (X15_command_line_allow_list
                    (mkSources (fun _ => None) (fun _ => None) (fun _ => false)
                       (fun _ => None))
                    "ethereum-optimism/optimism")); [by vm_compute | done].
  - apply (proj2 (X15_command_line_allow_list
                    (mkSources (fun _ => None)
                       (fun n => if String.eqb n "artifacts-owner-repo"
                                 then Some "op-node,op-geth" else None)
                       (fun _ => false) (fun _ => None))
                    "owner/repo")).
    split; [reflexivity |]. split; [by left | reflexivity].
Defined.

Lemma split_not_nil sep s : exists a rest, Str.split sep s = a :: rest.
Proof.
  pose proof (split_length sep s) as Hlen.
  destruct (Str.split sep s) as [|a rest]; [done | by eexists _, _].
Qed.

Lemma resolver_allow_list_not_nil s repo :
  exists a rest, Resolver.get_monorepo_artifacts s repo = a :: rest.
Proof.
  unfold Resolver.get_monorepo_artifacts.
  destruct (environ s _) as [[|? ?]|]; try apply split_not_nil;
    destruct (Resolver.getattr s _ _) as [[|? ?]|]; try apply split_not_nil;
    destruct (Resolver.from_files _ _ _ _); try apply split_not_nil; by eexists _, _.
Qed.

(** X16: whatever the sources say, the allow-list of a repository is
    never empty, and so no accumulator that [get_latest_releases] returns
    under the resolved settings is empty: the first configured key, or the
    empty key of the neutral result, is in it. *)
Theorem X16_allow_list_is_never_empty
    (s : Sources) (repo : string) (fuel : nat) (server : Server) (w : World) :
  exists a rest,
    Resolver.get_monorepo_artifacts s repo = a :: rest /\
    forall result w',
      get_latest_releases fuel server (Resolver.resolve s) repo w = Done result w' ->
      is_Some (Dict.get result a) \/ result = [("", Latest None None)].
Proof.
  destruct (resolver_allow_list_not_nil s repo) as (a & rest & Hlist).
  exists a, rest. split; [done |].
  intros result w' [-> | (exit & Hexit & Hrun)]%get_latest_releases_cases; [by right |].
  left. unfold fetch_releases in Hrun.
  apply (fetch_loop_invariant (fetch_history (Resolver.resolve s))
           (get_monorepo_artifacts (Resolver.resolve s) repo)
           (keys_invariant (fetch_history (Resolver.resolve s))
              (get_monorepo_artifacts (Resolver.resolve s) repo) (classified w)))
    in Hrun; [| |apply keys_invariant_start | done].
  - destruct Hrun as (seen & _ & _ & Hkeys). apply get_Some_keys, Hkeys. left.
    simpl. rewrite Hlist. by left.
  - intros acc r w1 acc' stop w1'. apply keys_invariant_step.
Qed.

(** * What a write changes *)

(** X18: when the writer returns [True], the target was not there before
    and now holds the notes of the release; every other path is as it was,
    except that missing directories on the way to the directory of the
    artifact have been made. Nothing else of the world changes. *)
Theorem X18_write_adds_one_file
    (cfg : Config) (owner repo artifact : string) (release : ReleaseInfo) (w w' : World) :
  save_release_notes cfg owner repo artifact (Some release) w = Done true w' ->
  FS.exists_ (fs w)
    (file_path (artifacts_root cfg) owner repo artifact (tag release)) = false /\
  fs w' !! file_path (artifacts_root cfg) owner repo artifact (tag release) =
    Some (File (file_content owner repo artifact release)) /\
  (forall p,
     p <> file_path (artifacts_root cfg) owner repo artifact (tag release) ->
     fs w' !! p = fs w !! p \/
     (fs w !! p = None /\ fs w' !! p = Some Dir /\
      p ∈ FS.prefixes (base_path (artifacts_root cfg) owner repo artifact))) /\
  requested w' = requested w /\ classified w' = classified w /\
  summaries w' = summaries w.
Proof.
  rewrite save_release_notes_Some. simpl.
  destruct (FS.mkdir _ _) as [fs1|] eqn:Hmk; [|done].
  destruct (FS.exists_ fs1 _) eqn:Hex; [done |].
  destruct (FS.write_text _ _ _) as [fs2|] eqn:Hwr; [|done].
  intros [= <-]. simpl. unfold FS.mkdir in Hmk.
  pose proof (mkdir_fold_extends _ _ _ Hmk) as (Hkeep & _ & Hdirs).
  split; [|split; [|split; [|done]]].
  - apply not_true_iff_false. intros Hw.
    apply (exists_extends _ fs1) in Hw; [congruence | done].
  - by apply write_text_exists in Hwr as (_ & ? & _).
  - intros p Hp.
    assert (Hp2 : fs2 !! p = fs1 !! p).
    { revert Hwr. unfold FS.write_text. destruct (_ && _); [|done].
      intros [= <-]. by rewrite lookup_insert_ne. }
    rewrite Hp2.
    destruct (decide (p ∈ FS.prefixes (base_path (artifacts_root cfg) owner repo artifact)))
      as [Hin | Hout].
    + destruct (fs w !! p) as [n|] eqn:Hold.
      * left. by apply Hkeep.
      * right. split; [done |]. split; [by apply Hdirs | done].
    + left. by apply (mkdir_fold_other _ _ _ _ Hmk).
Qed.

Lemma X18_write_adds_one_file_witness :
  FS.exists_ (fs (mkWorld ∅ [] [] []))
    (file_path (artifacts_root c8_config) "owner" "repo" "" (tag c8_release)) = false /\
  fs c8_written_world !! file_path (artifacts_root c8_config) "owner" "repo" ""
                           (tag c8_release) =
    Some (File (file_content "owner" "repo" "" c8_release)) /\
  (forall p,
     p <> file_path (artifacts_root c8_config) "owner" "repo" "" (tag c8_release) ->
     fs c8_written_world !! p = fs (mkWorld ∅ [] [] []) !! p \/
     (fs (mkWorld ∅ [] [] []) !! p = None /\ fs c8_written_world !! p = Some Dir /\
      p ∈ FS.prefixes (base_path (artifacts_root c8_config) "owner" "repo" ""))) /\
  requested c8_written_world = requested (mkWorld ∅ [] [] []) /\
  classified c8_written_world = classified (mkWorld ∅ [] [] []) /\
  summaries c8_written_world = summaries (mkWorld ∅ [] [] []).
Proof.
  apply (X18_write_adds_one_file c8_config "owner" "repo" "" c8_release
           (mkWorld ∅ [] [] []) c8_written_world).
  exact (proj1 save_then_skip).
Defined.
